(** * Keysight B1500 module driver: response parsing and output relays

    A shallow embedding of
    [qcodes/instrument_drivers/Keysight/keysightb1500/KeysightB1500_module.py]
    and the properties of its two response parsers and of the relay
    operations of [B1500Module].

    Conventions.
    - A Python [str] is a list of characters.  The characters are the code
      points below 256, which covers the ASCII text the instrument sends.
    - A Python [int] is a [Z]; a [float] is an IEEE 754 binary64 number,
      written as a [spec_float].
    - A call that can raise returns [exception + A]: [inl e] is "raised e",
      [inr v] is "returned v".
    - A [dict] is a [gmap], a [set] is a [gset]. *)

From Stdlib Require Import ZArith Ascii String List Bool Lia.
From Stdlib Require Import Floats.SpecFloat.
From stdpp Require Import base option list gmap strings pretty.

Local Open Scope Z_scope.

(* ================================================================== *)
(** * Characters and strings *)

Abbreviation str := (list ascii).

(** A string literal of the source. *)
Definition text (lit : string) : str := list_ascii_of_string lit.

Module Chars.

Definition code (c : ascii) : N := N_of_ascii c.

Definition between (lo hi : N) (c : ascii) : bool :=
  ((lo <=? code c) && (code c <=? hi))%N.

(** [\d] in a [str] pattern: the decimal digits. Below code point 256
    these are [0-9] only. *)
Definition is_digit (c : ascii) : bool := between 48 57 c.

(** [\w] in a [str] pattern: the alphanumeric characters and the
    underscore. Below 256 the alphanumerics are [0-9A-Za-z] and the
    letters and numerics of Latin-1. *)
Definition is_alnum (c : ascii) : bool :=
  between 48 57 c || between 65 90 c || between 97 122 c
  || between 170 170 c || between 178 179 c || between 181 181 c
  || between 185 186 c || between 188 190 c || between 192 214 c
  || between 216 246 c || between 248 255 c.

Definition is_word (c : ascii) : bool :=
  is_alnum c || bool_decide (c = "_"%char).

Definition is_sign (c : ascii) : bool :=
  bool_decide (c = "+"%char) || bool_decide (c = "-"%char).

Definition digit_value (c : ascii) : Z := Z.of_N (code c) - 48.

(** The number a run of decimal digits denotes. *)
Definition digits_value (ds : str) : Z :=
  foldl (λ acc c, 10 * acc + digit_value c) 0 ds.

(** The longest prefix of characters satisfying [f], and the rest. *)
Fixpoint span (f : ascii → bool) (s : str) : str * str :=
  match s with
  | c :: s' =>
      if f c then let '(t, rest) := span f s' in (c :: t, rest)
      else ([], s)
  | [] => ([], [])
  end.

End Chars.

(* ================================================================== *)
(** * The part of [re] the driver uses *)

(** Character sets: [\w], [\d], an enumeration such as [[+-]], and the
    union and complement that [[^,\d]] needs. *)
Inductive charset :=
| CsWord
| CsDigit
| CsOneOf (cs : list ascii)
| CsUnion (a b : charset)
| CsNot (a : charset).

Fixpoint mem (cs : charset) (c : ascii) : bool :=
  match cs with
  | CsWord => Chars.is_word c
  | CsDigit => Chars.is_digit c
  | CsOneOf l => bool_decide (c ∈ l)
  | CsUnion a b => mem a c || mem b c
  | CsNot a => negb (mem a c)
  end.

(** Regular expressions. Repetition is greedy and ranges over one
    character of a set, which is all the two patterns need:
    [\w+] is [RRep 1 None CsWord], [\d{1,3}] is [RRep 1 (Some 3) CsDigit]. *)
Inductive regex :=
| RChr (c : ascii)
| RCls (cs : charset)
| RRep (lo : nat) (hi : option nat) (cs : charset)
| ROpt (r : regex)
| RSeq (r1 r2 : regex)
| RGrp (i : nat) (r : regex).

(** A compiled pattern: the expression, the number of capturing groups
    and the table of group names ([Pattern.groupindex]). *)
Record Pattern := {
  p_regex : regex;
  p_groups : nat;
  p_groupindex : list (string * nat)
}.

(** The groups that took part in a match, by number. *)
Abbreviation captures := (gmap nat str).

Section Matcher.
Context {R : Type}.

(** Greedy bounded repetition of one character of [cs]: take one more
    character while allowed, and give it back when what follows fails.
    The continuation receives the text taken and the rest of the input. *)
Fixpoint rep (cs : charset) (lo : nat) (hi : option nat) (s : str)
    (k : str → str → option R) : option R :=
  let stop := match lo with O => k [] s | S _ => None end in
  match hi, s with
  | Some O, _ => stop
  | _, [] => stop
  | _, a :: s' =>
      if mem cs a then
        match rep cs (Nat.pred lo) (Nat.pred <$> hi) s'
                (λ t rest, k (a :: t) rest) with
        | Some x => Some x
        | None => stop
        end
      else stop
  end.

(** Backtracking matcher at the start of [s]. [g] holds the groups set so
    far; an alternative that fails leaves no trace in it. *)
Fixpoint run (r : regex) (s : str) (g : captures)
    (k : str → str → captures → option R) : option R :=
  match r with
  | RChr c =>
      match s with
      | a :: s' => if bool_decide (a = c) then k [a] s' g else None
      | [] => None
      end
  | RCls cs =>
      match s with
      | a :: s' => if mem cs a then k [a] s' g else None
      | [] => None
      end
  | RRep lo hi cs => rep cs lo hi s (λ t rest, k t rest g)
  | ROpt r1 =>
      match run r1 s g k with
      | Some x => Some x
      | None => k [] s g
      end
  | RSeq r1 r2 =>
      run r1 s g (λ t1 s1 g1,
        run r2 s1 g1 (λ t2 s2 g2, k (t1 ++ t2) s2 g2))
  | RGrp i r1 =>
      run r1 s g (λ t rest g1, k t rest (<[i:=t]> g1))
  end.

End Matcher.

(** A match object: the text matched and the groups. *)
Record Match := { m_text : str; m_groups : captures }.

(** [re.match(p, s)]: match at the start of [s]; the text after the match
    is not looked at. *)
Definition re_match (p : Pattern) (s : str) : option Match :=
  run (p_regex p) s ∅ (λ t _ g, Some {| m_text := t; m_groups := g |}).

(** [Match.group(i)]: [None] when the group did not take part. *)
Definition group (m : Match) (i : nat) : option str := m_groups m !! i.

(** The tuple [findall] yields for one match of a pattern with several
    groups: the text of groups 1..n, empty for a group that did not take
    part. *)
Definition groups_tuple (p : Pattern) (m : Match) : list str :=
  (λ i, default [] (group m i)) <$> seq 1 (p_groups p).

(** [re.findall(p, s)] for a pattern with two or more groups: the
    non-overlapping matches from left to right. [skip] counts the
    characters of the last match still to be passed over. An empty match
    moves on by one character. *)
Fixpoint findall_from (p : Pattern) (skip : nat) (s : str)
    : list (list str) :=
  match s with
  | [] =>
      match skip, re_match p [] with
      | O, Some m => [groups_tuple p m]
      | _, _ => []
      end
  | _ :: s' =>
      match skip with
      | S n => findall_from p n s'
      | O =>
          match re_match p s with
          | Some m =>
              groups_tuple p m
                :: findall_from p (Nat.pred (length (m_text m))) s'
          | None => findall_from p 0 s'
          end
      end
  end.

Definition re_findall (p : Pattern) (s : str) : list (list str) :=
  findall_from p 0 s.

(** [re.sub(cs, repl, s)] for a pattern that is one character set: every
    character of the set is replaced. *)
Definition re_sub (cs : charset) (repl : str) (s : str) : str :=
  s ≫= λ c, if mem cs c then repl else [c].

(* ================================================================== *)
(** * Exceptions and built-in conversions *)

(** The parts of a formatted message: literal text, and [repr] of a
    string, of an integer and of a compiled pattern. *)
Inductive fpart :=
| FText (t : string)
| FReprStr (v : str)
| FReprInt (n : Z)
| FReprPattern (p : Pattern).

Inductive exception :=
| ValueError (message : list fpart)
| TypeError (message : list fpart)
| KeyError (key : string).

Abbreviation result := (sum exception).

Definition raise {A} (e : exception) : result A := inl e.

#[global] Instance result_ret : MRet result := λ A x, inr x.
#[global] Instance result_bind : MBind result :=
  λ A B f m, match m with inl e => inl e | inr x => f x end.

(** [s.split(sep)] with a one-character separator: never empty, and an
    empty string gives one empty piece. *)
Fixpoint py_split (sep : ascii) (s : str) : list str :=
  match s with
  | [] => [[]]
  | c :: s' =>
      if bool_decide (c = sep) then [] :: py_split sep s'
      else match py_split sep s' with
           | piece :: pieces => (c :: piece) :: pieces
           | [] => [[c]]
           end
  end.

(** [int(s)] on a run of decimal digits; an empty string, like any other
    text that is no number, is a [ValueError]. Signs, blanks and
    underscores, which [int] also accepts, are left out: the driver only
    passes text made of digits. So is the limit that some interpreters
    put on the number of digits. *)
Definition py_int (s : str) : result Z :=
  if bool_decide (s ≠ []) && forallb Chars.is_digit s
  then mret (Chars.digits_value s)
  else raise (ValueError
         [FText "invalid literal for int() with base 10: "; FReprStr s]).

Module Float.

Definition prec : Z := 53.
Definition emax : Z := 1024.

(** The binary64 number nearest to [a / b], ties to even. *)
Definition of_ratio (neg : bool) (a b : positive) : spec_float :=
  SFdiv prec emax (S754_finite neg a 0) (S754_finite false b 0).

(** The binary64 number nearest to [n * 10 ^ e], for [0 <= n]. *)
Definition of_decimal (neg : bool) (n e : Z) : spec_float :=
  match n with
  | Zpos p =>
      if 0 <=? e then of_ratio neg (p * Z.to_pos (10 ^ e)) 1
      else of_ratio neg p (Z.to_pos (10 ^ (- e)))
  | _ => S754_zero neg
  end.

(** An optional sign: whether it is a minus, and the rest. *)
Definition sign (s : str) : bool * str :=
  match s with
  | c :: s' =>
      if bool_decide (c = "-"%char) then (true, s')
      else if bool_decide (c = "+"%char) then (false, s')
      else (false, s)
  | [] => (false, [])
  end.

(** An optional exponent part [E], sign, digits: its value and the rest;
    [None] when an [E] is not followed by digits. *)
Definition exponent (s : str) : option (Z * str) :=
  match s with
  | c :: s' =>
      if bool_decide (c = "E"%char) || bool_decide (c = "e"%char) then
        let '(neg, s1) := sign s' in
        let '(ds, rest) := Chars.span Chars.is_digit s1 in
        match ds with
        | [] => None
        | _ => Some (if neg then - Chars.digits_value ds
                     else Chars.digits_value ds, rest)
        end
      else Some (0, s)
  | [] => Some (0, [])
  end.

(** Decimal text to number: sign, integer digits, fraction, exponent.
    [None] when the text is not of that form. *)
Definition parse (s : str) : option spec_float :=
  let '(neg, s1) := sign s in
  let '(ip, s2) := Chars.span Chars.is_digit s1 in
  let '(fp, s3) :=
    match s2 with
    | c :: s2' =>
        if bool_decide (c = "."%char) then Chars.span Chars.is_digit s2'
        else ([], s2)
    | [] => ([], [])
    end in
  match ip ++ fp, exponent s3 with
  | _ :: _, Some (e, []) =>
      Some (of_decimal neg (Chars.digits_value (ip ++ fp))
              (e - Z.of_nat (length fp)))
  | _, _ => None
  end.

End Float.

(** [float(s)] on decimal text with an optional sign, fraction and
    exponent, rounded to the nearest binary64. Blanks, underscores and
    the names of infinity and NaN, which [float] also accepts, are left
    out: the driver only passes text the value group matched. *)
Definition py_float (s : str) : result spec_float :=
  match Float.parse s with
  | Some f => mret f
  | None => raise (ValueError
              [FText "could not convert string to float: "; FReprStr s])
  end.

(** The values a record of [parse_spot_measurement_response] holds. *)
Inductive pyval :=
| PyNone
| PyStr (s : str)
| PyFloat (f : spec_float).

(** [Match.groupdict()]: every named group, [None] for one that did not
    take part. *)
Definition groupdict (p : Pattern) (m : Match) : gmap string pyval :=
  list_to_map
    ((λ '(name, i), (name, from_option PyStr PyNone (group m i)))
       <$> p_groupindex p).

(** [enumerate(l, start)]. *)
Fixpoint enumerate {A} (start : Z) (l : list A) : list (Z * A) :=
  match l with
  | [] => []
  | x :: l' => (start, x) :: enumerate (start + 1) l'
  end.

(* ================================================================== *)
(** * The module under verification *)

(** Modelled from the spec: [SlotNr], declared in [constants], which is not
    among the sources. The spec's data model has it as a positive integer
    identifying a card slot, counted from 1; making one from an integer
    that is not positive fails. *)
Definition SlotNr (n : Z) : result positive :=
  match n with
  | Zpos p => mret p
  | _ => raise (ValueError [FReprInt n; FText " is not a valid SlotNr"])
  end.

(** [r";?(?P<model>\w+),(?P<revision>\d+)"] *)
Definition module_pattern : Pattern := {|
  p_regex :=
    RSeq (ROpt (RChr ";"))
      (RSeq (RGrp 1 (RRep 1 None CsWord))
         (RSeq (RChr ",")
            (RGrp 2 (RRep 1 None CsDigit))));
  p_groups := 2;
  p_groupindex := [("model"%string, 1%nat); ("revision"%string, 2%nat)]
|}.

(** The dictionary comprehension of [parse_module_query_response], one
    item at a time, in order. *)
Fixpoint slots_dict (items : list (Z * list str))
    (acc : gmap positive str) : result (gmap positive str) :=
  match items with
  | [] => mret acc
  | (slot_nr, [model; rev]) :: items' =>
      if bool_decide (model ≠ text "0") then
        key ← SlotNr slot_nr;
        slots_dict items' (<[key:=model]> acc)
      else slots_dict items' acc
  | (_, [] as t) :: _ | (_, [_] as t) :: _ =>
      raise (ValueError
        [FText "not enough values to unpack (expected 2, got ";
         FReprInt (Z.of_nat (length t)); FText ")"])
  | (_, _) :: _ =>
      raise (ValueError [FText "too many values to unpack (expected 2)"])
  end.

Definition parse_module_query_response (response : str)
    : result (gmap positive str) :=
  let moduleinfo := re_findall module_pattern response in
  slots_dict (enumerate 1 moduleinfo) ∅.

(** The two lines of [_pattern]:
    [r"((?P<status>\w)(?P<chnr>\w)(?P<dtype>\w))?"] and
    [r"(?P<value>[+-]\d{1,3}\.\d{3,6}E[+-]\d{2})"]. *)
Definition prefix_part : regex :=
  ROpt (RGrp 1
    (RSeq (RGrp 2 (RCls CsWord))
       (RSeq (RGrp 3 (RCls CsWord))
          (RGrp 4 (RCls CsWord))))).

Definition value_part : regex :=
  RGrp 5
    (RSeq (RCls (CsOneOf ["+"; "-"]%char))
       (RSeq (RRep 1 (Some 3%nat) CsDigit)
          (RSeq (RChr ".")
             (RSeq (RRep 3 (Some 6%nat) CsDigit)
                (RSeq (RChr "E")
                   (RSeq (RCls (CsOneOf ["+"; "-"]%char))
                      (RRep 2 (Some 2%nat) CsDigit))))))).

Definition _pattern : Pattern := {|
  p_regex := RSeq prefix_part value_part;
  p_groups := 5;
  p_groupindex :=
    [("status"%string, 2%nat); ("chnr"%string, 3%nat);
     ("dtype"%string, 4%nat); ("value"%string, 5%nat)]
|}.

Definition parse_spot_measurement_response (response : str)
    : result (gmap string pyval) :=
  match re_match _pattern response with
  | None =>
      raise (ValueError
        [FReprStr response; FText " didn't match ";
         FReprPattern _pattern; FText " pattern"])
  | Some match_ =>
      let d := groupdict _pattern match_ in
      match d !! "value"%string with
      | Some (PyStr v) =>
          f ← py_float v;
          mret (<["value"%string := PyFloat f]> d)
      | Some _ =>
          raise (TypeError
            [FText "float() argument must be a string or a real number"])
      | None => raise (KeyError "value")
      end
  end.

(** A module: its channels and its slot. *)
Record B1500Module := {
  channels : list Z;
  slot_nr : positive
}.

(** The part of [is_enabled] after the instrument has answered. The set
    method [issubset] reads all of the generator it is given, so every
    piece is converted before the comparison. *)
Definition activated_channels (response : str) : list str :=
  py_split "," (re_sub (CsNot (CsUnion (CsOneOf [","%char]) CsDigit))
                  [] response).

Definition issubset (a : gset Z) (other : list Z) : bool :=
  bool_decide (a ⊆ list_to_set other).

Definition is_enabled_of_response (chans : list Z) (response : str)
    : result bool :=
  ints ← mapM py_int (activated_channels response);
  mret (issubset (list_to_set chans) ints).

Section Driver.

(** The collaborators, which are not among the sources: the connection to
    the mainframe ([write] and [ask] of the instrument channel, which may
    raise and may change the state [Instr] of the instrument), and the
    message builder with its commands [cn] (close the output relays),
    [cl] (open them) and [lrn_query]. *)
Context {Instr MB LRNType : Type}.
Context (write : str → Instr → result unit * Instr).
Context (ask : str → Instr → result str * Instr).
Context (MessageBuilder : MB).
Context (cn cl : list Z → MB → MB).
Context (lrn_query : LRNType → MB → MB).
Context (message : MB → str).
Context (OUTPUT_SWITCH : LRNType).

(** A method takes the module and the instrument, and gives its outcome
    with the module and the instrument as it leaves them. *)
Definition enable_outputs (self : B1500Module) (i : Instr)
    : result unit * (B1500Module * Instr) :=
  let msg := message (cn (channels self) MessageBuilder) in
  let '(r, i') := write msg i in
  (r, (self, i')).

Definition disable_outputs (self : B1500Module) (i : Instr)
    : result unit * (B1500Module * Instr) :=
  let msg := message (cl (channels self) MessageBuilder) in
  let '(r, i') := write msg i in
  (r, (self, i')).

Definition is_enabled (self : B1500Module) (i : Instr)
    : result bool * (B1500Module * Instr) :=
  let msg := message (lrn_query OUTPUT_SWITCH MessageBuilder) in
  let '(r, i') := ask msg i in
  (response ← r; is_enabled_of_response (channels self) response,
   (self, i')).

End Driver.

(* ================================================================== *)
(** * What a match is *)

(** [matches r g t g']: the expression [r] can match exactly the text [t],
    taking the groups from [g] to [g']. This says which texts an
    expression accepts, not which one the matcher prefers. *)
Inductive matches : regex → captures → str → captures → Prop :=
| M_Chr c g :
    matches (RChr c) g [c] g
| M_Cls cs a g :
    mem cs a = true →
    matches (RCls cs) g [a] g
| M_Rep lo hi cs t g :
    forallb (mem cs) t = true →
    (lo ≤ length t)%nat →
    (∀ h, hi = Some h → (length t ≤ h)%nat) →
    matches (RRep lo hi cs) g t g
| M_OptSome r g t g' :
    matches r g t g' →
    matches (ROpt r) g t g'
| M_OptNone r g :
    matches (ROpt r) g [] g
| M_Seq r1 r2 g t1 g1 t2 g2 :
    matches r1 g t1 g1 →
    matches r2 g1 t2 g2 →
    matches (RSeq r1 r2) g (t1 ++ t2) g2
| M_Grp i r g t g' :
    matches r g t g' →
    matches (RGrp i r) g t (<[i:=t]> g').

(** The spot measurement grammar in the words of the spec: a numeric token
    is a sign, 1 to 3 integer digits, a point, 3 to 6 fractional digits,
    [E], a sign and exactly 2 exponent digits. *)
Inductive value_token : str → Prop :=
| ValueToken sg ip fp sg' e1 e2 :
    Chars.is_sign sg = true →
    forallb Chars.is_digit ip = true →
    (1 ≤ length ip ≤ 3)%nat →
    forallb Chars.is_digit fp = true →
    (3 ≤ length fp ≤ 6)%nat →
    Chars.is_sign sg' = true →
    Chars.is_digit e1 = true →
    Chars.is_digit e2 = true →
    value_token
      (sg :: ip ++ "."%char :: fp ++ "E"%char :: [sg'; e1; e2]).

(** A well-formed inventory in the words of the spec: entries of a model
    token (one or more word characters), a comma and a revision (one or
    more digits), separated by semicolons. *)
Definition entry_ok (e : str * str) : Prop :=
  e.1 ≠ [] ∧ forallb Chars.is_word e.1 = true
  ∧ e.2 ≠ [] ∧ forallb Chars.is_digit e.2 = true.

Definition entry_text (e : str * str) : str := e.1 ++ ","%char :: e.2.

Definition more_entries (es : list (str * str)) : str :=
  es ≫= λ e, ";"%char :: entry_text e.

Definition inventory_text (es : list (str * str)) : str :=
  match es with
  | [] => []
  | e :: es' => entry_text e ++ more_entries es'
  end.

(** The optional prefix: nothing, or three word characters. *)
Definition prefix_text (pre : option (ascii * ascii * ascii)) : str :=
  match pre with
  | Some (c1, c2, c3) => [c1; c2; c3]
  | None => []
  end.

Definition prefix_ok (pre : option (ascii * ascii * ascii)) : Prop :=
  match pre with
  | Some (c1, c2, c3) =>
      Chars.is_word c1 = true ∧ Chars.is_word c2 = true
      ∧ Chars.is_word c3 = true
  | None => True
  end.

(** The grammar matches at the start of [s]. *)
Definition matches_at_start (s : str) : Prop :=
  ∃ pre tok rest,
    prefix_ok pre ∧ value_token tok ∧ s = prefix_text pre ++ tok ++ rest.

(** The record the parser builds from a prefix and a value. *)
Definition spot_record (pre : option (ascii * ascii * ascii))
    (f : spec_float) : gmap string pyval :=
  let field (c : option ascii) :=
    match c with Some a => PyStr [a] | None => PyNone end in
  list_to_map
    [("status"%string, field ((λ p, p.1.1) <$> pre));
     ("chnr"%string, field ((λ p, p.1.2) <$> pre));
     ("dtype"%string, field ((λ p, p.2) <$> pre));
     ("value"%string, PyFloat f)].

(** The groups of a match with that prefix and that numeric token. *)
Definition spot_groups (pre : option (ascii * ascii * ascii)) (tok : str)
    : captures :=
  <[5%nat:=tok]>
    match pre with
    | Some (c1, c2, c3) =>
        <[1%nat:=[c1; c2; c3]]>
          (<[4%nat:=[c3]]> (<[3%nat:=[c2]]> (<[2%nat:=[c1]]> ∅)))
    | None => ∅
    end.

(** A float literal of Python source text. *)
Definition float_literal (lit : string) : spec_float :=
  default S754_nan (Float.parse (text lit)).

(** The value the numeric token denotes: signed digits times a power of
    ten. *)
Definition token_value (sg : ascii) (ip fp : str) (sg' e1 e2 : ascii)
    : spec_float :=
  Float.of_decimal (bool_decide (sg = "-"%char))
    (Chars.digits_value (ip ++ fp))
    ((if bool_decide (sg' = "-"%char) then - Chars.digits_value [e1; e2]
      else Chars.digits_value [e1; e2]) - Z.of_nat (length fp)).

(** The message of the error raised when the pattern does not match. *)
Definition no_match (response : str) : exception :=
  ValueError
    [FReprStr response; FText " didn't match ";
     FReprPattern _pattern; FText " pattern"].

(** The error of [int] on an empty string. *)
Definition int_of_nothing : exception :=
  ValueError [FText "invalid literal for int() with base 10: "; FReprStr []].

(** A stand-in for the instrument: it records what it is sent and gives
    one fixed answer. Its messages are the texts themselves. *)
Record Stub := { sent : list str; answer : str }.

Definition stub_write (msg : str) (i : Stub) : result unit * Stub :=
  (inr (), {| sent := sent i ++ [msg]; answer := answer i |}).

Definition stub_ask (msg : str) (i : Stub) : result str * Stub :=
  (inr (answer i), {| sent := sent i ++ [msg]; answer := answer i |}).

(** The sign bit of a float: [None] for NaN, which has none that
    matters. *)
Definition float_negative (f : spec_float) : option bool :=
  match f with
  | S754_zero neg | S754_infinity neg | S754_finite neg _ _ => Some neg
  | S754_nan => None
  end.

(** [sep.join(pieces)] with a one-character separator. *)
Fixpoint py_join (sep : ascii) (pieces : list str) : str :=
  match pieces with
  | [] => []
  | piece :: pieces' =>
      match pieces' with
      | [] => piece
      | _ :: _ => piece ++ sep :: py_join sep pieces'
      end
  end.

(** [s.lower()]: below code point 256 the capital letters are [A-Z] and
    the Latin-1 capitals, each 32 below its small letter. *)
Definition lower_char (c : ascii) : ascii :=
  if Chars.between 65 90 c || Chars.between 192 214 c
     || Chars.between 216 222 c
  then ascii_of_N (Chars.code c + 32)
  else c.

Definition py_lower (s : str) : str := lower_char <$> s.

(** [str(n)] of an integer: its decimal digits, after a minus sign when it
    is negative. *)
Definition py_str_int (n : Z) : str := text (pretty n).

Section Init.

(** The collaborators of [B1500Module.__init__], which are not among the
    sources: the modules the mainframe holds by kind ([parent.by_kind], a
    lookup, which may raise), the initialiser of [InstrumentChannel],
    which is handed the name and the remaining keyword arguments, and the
    kind of the module, a string that each subclass sets. *)
Context {Parent Module Kwargs : Type}.
Context (by_kind : Parent → str → result (list Module)).
Context (super_init : Parent → str → Kwargs → result unit).
Context (MODULE_KIND : str).

(** [__init__] converts the slot number, makes up a name from the kind and
    the number of modules of that kind when none is given, and hands the
    name on. The outcome is the slot number stored and the name handed
    on; the channels are set by the subclasses. *)
Definition __init__ (parent : Parent) (name : option str) (slot_nr : Z)
    (kwargs : Kwargs) : result (positive * str) :=
  slot ← SlotNr slot_nr;
  name' ← match name with
           | None =>
               modules ← by_kind parent MODULE_KIND;
               let number := Z.of_nat (length modules) + 1 in
               mret (py_lower MODULE_KIND ++ py_str_int number)
           | Some given => mret given
           end;
  _ ← super_init parent name' kwargs;
  mret (slot, name').

End Init.

(* ================================================================== *)
(** * Characters *)

Section CharFacts.

Lemma sign_inv c :
  Chars.is_sign c = true → c = "+"%char ∨ c = "-"%char.
Proof.
  unfold Chars.is_sign. rewrite orb_true_iff, !bool_decide_eq_true. tauto.
Qed.

Lemma sign_not_word c : Chars.is_sign c = true → Chars.is_word c = false.
Proof. intros [-> | ->]%sign_inv; reflexivity. Qed.

Lemma sign_elem c :
  bool_decide (c ∈ ["+"; "-"]%char) = Chars.is_sign c.
Proof.
  unfold Chars.is_sign.
  destruct (decide (c = "+"%char)) as [-> | H1]; [reflexivity|].
  destruct (decide (c = "-"%char)) as [-> | H2]; [reflexivity|].
  rewrite !bool_decide_eq_false_2; [done..|].
  rewrite !elem_of_cons, elem_of_nil. tauto.
Qed.

End CharFacts.

(* ================================================================== *)
(** * The matcher *)

Section MatcherFacts.
Context {R : Type}.
Implicit Types (k : str → str → option R) (cs : charset).

(** Whatever [rep] hands to its continuation is a run of characters of the
    set, within the bounds. *)
Lemma rep_sound cs s : ∀ lo hi k x,
  rep cs lo hi s k = Some x →
  ∃ t rest,
    s = t ++ rest ∧ forallb (mem cs) t = true ∧ (lo ≤ length t)%nat
    ∧ (∀ h, hi = Some h → (length t ≤ h)%nat) ∧ k t rest = Some x.
Proof.
  assert (Hstop : ∀ lo hi s' k x,
    match lo with O => k [] s' | S _ => None end = Some x →
    ∃ t rest,
      s' = t ++ rest ∧ forallb (mem cs) t = true ∧ (lo ≤ length t)%nat
      ∧ (∀ h, hi = Some h → (length t ≤ h)%nat) ∧ k t rest = Some x).
  { intros [|lo] hi s' k x Hk; [|done].
    exists [], s'. repeat split; simpl; auto with lia. }
  induction s as [|a s IH]; intros lo hi k x Hrep.
  - apply Hstop. destruct hi as [[|h]|]; exact Hrep.
  - assert (Hmore :
      (if mem cs a then
         match rep cs (Nat.pred lo) (Nat.pred <$> hi) s
                 (λ t rest, k (a :: t) rest) with
         | Some y => Some y
         | None => match lo with O => k [] (a :: s) | S _ => None end
         end
       else match lo with O => k [] (a :: s) | S _ => None end) = Some x →
      hi ≠ Some O →
      ∃ t rest,
        a :: s = t ++ rest ∧ forallb (mem cs) t = true ∧ (lo ≤ length t)%nat
        ∧ (∀ h, hi = Some h → (length t ≤ h)%nat) ∧ k t rest = Some x).
    { intros Hx Hhi. destruct (mem cs a) eqn:Ha; [|by apply Hstop].
      destruct (rep _ _ _ s _) as [y|] eqn:Hin; [|by apply Hstop].
      simplify_eq. apply IH in Hin as (t & rest & -> & Ht & Hlo & Hh & Hk).
      exists (a :: t), rest. simpl. rewrite Ha, Ht.
      repeat split; [lia| |done].
      intros h ->. specialize (Hh (Nat.pred h) eq_refl).
      destruct h; [done|simpl in *; lia]. }
    destruct hi as [[|h]|]; [by apply Hstop|by apply Hmore..].
Qed.

(** On a run of characters of the set that cannot be made longer, [rep]
    first offers the whole run. *)
Lemma rep_take cs t : ∀ lo hi rest k x,
  forallb (mem cs) t = true →
  (lo ≤ length t)%nat →
  (∀ h, hi = Some h → (length t ≤ h)%nat) →
  (∀ c r, rest = c :: r → mem cs c = true → hi = Some (length t)) →
  k t rest = Some x →
  rep cs lo hi (t ++ rest) k = Some x.
Proof.
  induction t as [|a t IH]; intros lo hi rest k x Ht Hlo Hhi Hend Hk.
  - assert (lo = O) as -> by (simpl in Hlo; lia).
    destruct hi as [[|h]|], rest as [|c r]; simpl; try done.
    + destruct (mem cs c) eqn:Hc; [|done].
      by specialize (Hend c r eq_refl Hc).
    + destruct (mem cs c) eqn:Hc; [|done].
      by specialize (Hend c r eq_refl Hc).
  - simpl in Ht. apply andb_true_iff in Ht as [Ha Ht].
    assert (Hin : rep cs (Nat.pred lo) (Nat.pred <$> hi) (t ++ rest)
                    (λ t' rest', k (a :: t') rest') = Some x).
    { apply IH; [done|simpl in Hlo; lia| | |done].
      - intros h Hh. destruct hi as [h'|]; [|done].
        simpl in Hh. simplify_eq. specialize (Hhi h' eq_refl).
        simpl in Hhi. lia.
      - intros c r Hr Hc. specialize (Hend c r Hr Hc). by subst hi. }
    simpl. destruct hi as [[|h]|].
    + specialize (Hhi O eq_refl). simpl in Hhi. lia.
    + by rewrite Ha, Hin.
    + by rewrite Ha, Hin.
Qed.

End MatcherFacts.

(** The backtracking matcher only ever hands on a text its expression
    accepts. *)
Lemma run_sound {R} r : ∀ s g (k : str → str → captures → option R) x,
  run r s g k = Some x →
  ∃ t rest g', s = t ++ rest ∧ matches r g t g' ∧ k t rest g' = Some x.
Proof.
  induction r as [c|cs|lo hi cs|r IH|r1 IH1 r2 IH2|i r IH];
    intros s g k x Hrun; simpl in Hrun.
  - destruct s as [|a s]; [done|]. case_bool_decide; [|done]. subst a.
    exists [c], s, g. split_and!; [done|constructor|done].
  - destruct s as [|a s]; [done|]. destruct (mem cs a) eqn:Ha; [|done].
    exists [a], s, g. split_and!; [done|by constructor|done].
  - apply rep_sound in Hrun as (t & rest & -> & Ht & Hlo & Hhi & Hk).
    exists t, rest, g. split_and!; [done|by constructor|done].
  - destruct (run r s g k) as [y|] eqn:Hr.
    + simplify_eq. apply IH in Hr as (t & rest & g' & -> & Hm & Hk).
      exists t, rest, g'. split_and!; [done|by constructor|done].
    + exists [], s, g. split_and!; [done|apply M_OptNone|done].
  - apply IH1 in Hrun as (t1 & s1 & g1 & -> & Hm1 & Hrun).
    apply IH2 in Hrun as (t2 & s2 & g2 & -> & Hm2 & Hk).
    exists (t1 ++ t2), s2, g2.
    split_and!; [by rewrite <-(assoc_L (++))|by econstructor|done].
  - apply IH in Hrun as (t & rest & g' & -> & Hm & Hk).
    exists t, rest, (<[i:=t]> g'). split_and!; [done|by constructor|done].
Qed.

(* ================================================================== *)
(** * The spot measurement pattern *)

Section SpotPattern.

Lemma token_app sg ip fp sg' e1 e2 (rest : str) :
  (sg :: ip ++ "."%char :: fp ++ "E"%char :: [sg'; e1; e2]) ++ rest
  = sg :: ip ++ "."%char :: fp ++ "E"%char :: sg' :: [e1; e2] ++ rest.
Proof. simpl. by rewrite <-!(assoc_L (++)); simpl; rewrite <-!(assoc_L (++)). Qed.

(** On a numeric token the value part matches the whole token, whatever
    follows it. *)
Lemma value_part_complete {R} tok rest g
    (k : str → str → captures → option R) x :
  value_token tok →
  k tok rest (<[5%nat:=tok]> g) = Some x →
  run value_part (tok ++ rest) g k = Some x.
Proof.
  intros [sg ip fp sg' e1 e2 Hsg Hip Hipl Hfp Hfpl Hsg' He1 He2] Hk.
  rewrite token_app. unfold value_part. simpl run.
  rewrite sign_elem, Hsg.
  apply rep_take; [done|lia|intros ? [= <-]; lia| |].
  { intros c r [= <- <-]. done. }
  rewrite bool_decide_eq_true_2 by done.
  apply rep_take; [done|lia|intros ? [= <-]; lia| |].
  { intros c r [= <- <-]. done. }
  rewrite bool_decide_eq_true_2 by done.
  rewrite sign_elem, Hsg'.
  apply (rep_take _ [e1; e2]); [by simpl; rewrite He1, He2|simpl; lia| | |].
  { intros ? [= <-]. simpl. lia. }
  { intros c r _ _. done. }
  rewrite <-Hk. f_equal.
  all: simpl; by rewrite <-?(assoc_L (++)); simpl; rewrite <-?(assoc_L (++)).
Qed.

Lemma value_token_head tok :
  value_token tok → ∃ sg t, tok = sg :: t ∧ Chars.is_sign sg = true.
Proof. intros [sg ip fp sg' e1 e2 Hsg _ _ _ _ _ _ _]. eauto. Qed.

Lemma first_some {A} (o d : option A) x :
  o = Some x → match o with Some y => Some y | None => d end = Some x.
Proof. by intros ->. Qed.

(** A text that starts as the grammar says is matched, with the prefix
    and the numeric token as its groups; what follows plays no part. *)
Lemma spot_match_complete pre tok rest :
  prefix_ok pre →
  value_token tok →
  re_match _pattern (prefix_text pre ++ tok ++ rest)
  = Some {| m_text := prefix_text pre ++ tok;
            m_groups := spot_groups pre tok |}.
Proof.
  intros Hpre Htok. unfold re_match, _pattern, prefix_part, p_regex.
  remember value_part as V eqn:HV.
  destruct pre as [[[c1 c2] c3]|].
  - destruct Hpre as (H1 & H2 & H3). simpl. rewrite H1, H2, H3. subst V.
    apply first_some, value_part_complete; done.
  - destruct (value_token_head _ Htok) as (sg & t & Ht & Hsg).
    simpl prefix_text. rewrite !app_nil_l.
    rewrite Ht at 1. simpl. rewrite (sign_not_word _ Hsg).
    change (sg :: t ++ rest) with ((sg :: t) ++ rest). rewrite <-Ht.
    subst V. apply value_part_complete; done.
Qed.

Ltac inv_matches :=
  repeat match goal with
  | H : matches (RSeq _ _) _ _ _ |- _ => inversion H; subst; clear H
  | H : matches (RGrp _ _) _ _ _ |- _ => inversion H; subst; clear H
  | H : matches (RCls _) _ _ _ |- _ => inversion H; subst; clear H
  | H : matches (RChr _) _ _ _ |- _ => inversion H; subst; clear H
  | H : matches (RRep _ _ _) _ _ _ |- _ => inversion H; subst; clear H
  end.

Lemma value_part_sound g t g' :
  matches value_part g t g' → value_token t ∧ g' = <[5%nat:=t]> g.
Proof.
  unfold value_part. intros Hm. inv_matches.
  repeat match goal with
  | H : ∀ h, Some ?n = Some h → _ |- _ => specialize (H n eq_refl)
  end.
  match goal with
  | H : (2 ≤ length ?ed)%nat |- _ =>
      destruct ed as [|e1 [|e2 [|]]]; simpl in *; try lia
  end.
  split; [|done].
  repeat match goal with
  | H : bool_decide (_ ∈ _) = true |- _ => rewrite sign_elem in H
  | H : _ && _ = true |- _ => apply andb_true_iff in H as [??]
  end.
  apply ValueToken; auto with lia.
Qed.

Lemma prefix_part_sound g t g' :
  matches prefix_part g t g' →
  ∃ pre,
    prefix_ok pre ∧ t = prefix_text pre
    ∧ g' = match pre with
           | Some (c1, c2, c3) =>
               <[1%nat:=[c1; c2; c3]]>
                 (<[4%nat:=[c3]]> (<[3%nat:=[c2]]> (<[2%nat:=[c1]]> g)))
           | None => g
           end.
Proof.
  unfold prefix_part. intros Hm.
  inversion Hm as [| | |? ? ? ? Hin| | |]; subst; clear Hm.
  - inv_matches.
    match goal with
    | H1 : mem CsWord ?c1 = true, H2 : mem CsWord ?c2 = true,
      H3 : mem CsWord ?c3 = true |- context [[?c1] ++ [?c2] ++ [?c3]] =>
        exists (Some (c1, c2, c3))
    end.
    by split_and!.
  - by exists None.
Qed.

(** Whatever the matcher finds starts as the grammar says. *)
Lemma spot_match_sound s m :
  re_match _pattern s = Some m →
  ∃ pre tok rest,
    prefix_ok pre ∧ value_token tok ∧ s = prefix_text pre ++ tok ++ rest
    ∧ m = {| m_text := prefix_text pre ++ tok;
             m_groups := spot_groups pre tok |}.
Proof.
  unfold re_match.
  intros (t & rest & g' & -> & Hm & [= <-])%run_sound.
  simpl in Hm. inversion Hm as [| | | | |? ? ? t1 g1 t2 g2 Hp Hv|]; subst.
  apply prefix_part_sound in Hp as (pre & Hpre & -> & ->).
  apply value_part_sound in Hv as (Htok & ->).
  exists pre, t2, rest. split_and!; [done..|by rewrite (assoc_L (++))|].
  by destruct pre as [[[??]?]|].
Qed.

End SpotPattern.

(* ================================================================== *)
(** * Conversion of the numeric token *)

Section FloatFacts.

Lemma span_app f t : ∀ rest,
  forallb f t = true →
  (∀ c r, rest = c :: r → f c = false) →
  Chars.span f (t ++ rest) = (t, rest).
Proof.
  induction t as [|a t IH]; intros rest Ht Hrest.
  - destruct rest as [|c r]; [done|]. simpl.
    by rewrite (Hrest c r eq_refl).
  - simpl in *. apply andb_true_iff in Ht as [-> Ht]. by rewrite IH.
Qed.

Lemma float_parse_token sg ip fp sg' e1 e2 :
  Chars.is_sign sg = true →
  forallb Chars.is_digit ip = true →
  (1 ≤ length ip)%nat →
  forallb Chars.is_digit fp = true →
  Chars.is_sign sg' = true →
  Chars.is_digit e1 = true →
  Chars.is_digit e2 = true →
  Float.parse (sg :: ip ++ "."%char :: fp ++ "E"%char :: [sg'; e1; e2])
  = Some (token_value sg ip fp sg' e1 e2).
Proof.
  intros Hsg Hip Hlen Hfp Hsg' He1 He2. unfold Float.parse, token_value.
  assert (Hs : Float.sign (sg :: ip ++ "."%char :: fp ++ "E"%char :: [sg'; e1; e2])
               = (bool_decide (sg = "-"%char),
                  ip ++ "."%char :: fp ++ "E"%char :: [sg'; e1; e2])).
  { by destruct (sign_inv _ Hsg) as [-> | ->]. }
  rewrite Hs, (span_app _ ip) by (done || by intros ? ? [= <- <-]).
  rewrite bool_decide_eq_true_2 by done.
  rewrite (span_app _ fp) by (done || by intros ? ? [= <- <-]).
  assert (He : Float.exponent ("E"%char :: [sg'; e1; e2])
               = Some (if bool_decide (sg' = "-"%char)
                       then - Chars.digits_value [e1; e2]
                       else Chars.digits_value [e1; e2], [])).
  { destruct (sign_inv _ Hsg') as [-> | ->]; simpl; by rewrite He1, He2. }
  rewrite He. destruct ip as [|d ip]; [simpl in Hlen; lia|done].
Qed.

Lemma py_float_token tok :
  value_token tok → ∃ f, py_float tok = inr f.
Proof.
  intros [sg ip fp sg' e1 e2 Hsg Hip Hipl Hfp Hfpl Hsg' He1 He2].
  unfold py_float. rewrite float_parse_token by (done || lia). eauto.
Qed.

(** The two values the spec gives as examples: 1234500 is a binary64
    number; the one for -0.01234 lies within half a unit in the last place
    of it. *)
Lemma float_literal_examples :
  float_literal "1234500.0" = S754_finite false (1234500 * 2 ^ 32) (-32)
  ∧ float_literal "-0.01234" = S754_finite true 7113525683424246 (-59)
  ∧ 2 * Z.abs (7113525683424246 * 10 ^ 5 - 1234 * 2 ^ 59) ≤ 10 ^ 5.
Proof. split_and!; [by vm_compute..|]. vm_compute. discriminate. Qed.

End FloatFacts.

(* ================================================================== *)
(** * [parse_spot_measurement_response] *)

Section SpotParser.

Lemma groupdict_value pre tok t :
  groupdict _pattern {| m_text := t; m_groups := spot_groups pre tok |}
    !! "value"%string
  = Some (PyStr tok).
Proof. by destruct pre as [[[??]?]|]. Qed.

Lemma groupdict_record pre tok t f :
  <["value"%string:=PyFloat f]>
    (groupdict _pattern {| m_text := t; m_groups := spot_groups pre tok |})
  = spot_record pre f.
Proof. by destruct pre as [[[??]?]|]. Qed.

(** A response that starts as the grammar says is parsed, into the prefix
    characters and the value of the numeric token. *)
Lemma parse_spot_complete pre tok rest :
  prefix_ok pre →
  value_token tok →
  ∃ f, py_float tok = inr f
       ∧ parse_spot_measurement_response (prefix_text pre ++ tok ++ rest)
         = inr (spot_record pre f).
Proof.
  intros Hpre Htok. destruct (py_float_token _ Htok) as [f Hf].
  exists f. split; [done|]. unfold parse_spot_measurement_response.
  rewrite spot_match_complete, groupdict_value, Hf by done.
  simpl. by rewrite groupdict_record.
Qed.

(** Every record comes from such a response. *)
Lemma parse_spot_sound s d :
  parse_spot_measurement_response s = inr d →
  ∃ pre tok rest f,
    prefix_ok pre ∧ value_token tok ∧ s = prefix_text pre ++ tok ++ rest
    ∧ py_float tok = inr f ∧ d = spot_record pre f.
Proof.
  unfold parse_spot_measurement_response.
  destruct (re_match _pattern s) as [m|] eqn:Hm; [|done].
  apply spot_match_sound in Hm as (pre & tok & rest & Hpre & Htok & -> & ->).
  rewrite groupdict_value. destruct (py_float_token _ Htok) as [f Hf].
  rewrite Hf. simpl. rewrite groupdict_record. intros [= <-].
  by exists pre, tok, rest, f.
Qed.

(** The only error is the one for a response that does not start as the
    grammar says. *)
Lemma parse_spot_error s e :
  parse_spot_measurement_response s = inl e →
  e = no_match s ∧ ¬ matches_at_start s.
Proof.
  intros He. split.
  - unfold parse_spot_measurement_response, raise in He.
    destruct (re_match _pattern s) as [m|] eqn:Hm; [|by simplify_eq].
    apply spot_match_sound in Hm as (pre & tok & rest & Hpre & Htok & -> & ->).
    rewrite groupdict_value in He. destruct (py_float_token _ Htok) as [f Hf].
    by rewrite Hf in He.
  - intros (pre & tok & rest & Hpre & Htok & ->).
    destruct (parse_spot_complete pre tok rest Hpre Htok) as (f & _ & Hp).
    congruence.
Qed.

Lemma parse_spot_no_match s :
  ¬ matches_at_start s →
  parse_spot_measurement_response s = inl (no_match s).
Proof.
  intros Hno. destruct (parse_spot_measurement_response s) as [e|d] eqn:Hp.
  - by apply parse_spot_error in Hp as [-> _].
  - apply parse_spot_sound in Hp as (pre & tok & rest & f & ? & ? & ? & _).
    destruct Hno. by exists pre, tok, rest.
Qed.

End SpotParser.

(* ================================================================== *)
(** * Properties of the spot measurement parser *)





(** C5. [parse_spot_measurement_response] raises the error that carries
    the offending input exactly when the grammar does not match at the
    start of the input, and raises nothing else; characters after a match
    are ignored. The input hello fails with the error for that string. *)
Theorem spot_error_iff_no_match :
  (∀ s,
     parse_spot_measurement_response s = inl (no_match s)
     ↔ ¬ matches_at_start s)
  ∧ (∀ s e, parse_spot_measurement_response s = inl e → e = no_match s)
  ∧ (∀ pre tok rest,
       prefix_ok pre →
       value_token tok →
       parse_spot_measurement_response (prefix_text pre ++ tok ++ rest)
       = parse_spot_measurement_response (prefix_text pre ++ tok)
       ∧ ∃ d, parse_spot_measurement_response (prefix_text pre ++ tok)
              = inr d)
  ∧ parse_spot_measurement_response (text "hello")
    = inl (ValueError
        [FReprStr (text "hello"); FText " didn't match ";
         FReprPattern _pattern; FText " pattern"]).
Proof.
  split_and!.
  - intros s. split.
    + by intros [_ ?]%parse_spot_error.
    + apply parse_spot_no_match.
  - by intros s e [-> _]%parse_spot_error.
  - intros pre tok rest Hpre Htok.
    destruct (parse_spot_complete pre tok rest Hpre Htok) as (f & Hf & ->).
    destruct (parse_spot_complete pre tok [] Hpre Htok) as (f' & Hf' & Hp).
    rewrite app_nil_r in Hp. rewrite Hp. split; [congruence|eauto].
  - vm_compute. reflexivity.
Qed.

Lemma spot_error_iff_no_match_witness :
  ¬ matches_at_start (text "+1.2E+00")
  ∧ ValueError
      [FReprStr (text "hello"); FText " didn't match ";
       FReprPattern _pattern; FText " pattern"]
    = no_match (text "hello")
  ∧ parse_spot_measurement_response (text "+1.250E+00 V")
    = parse_spot_measurement_response (text "+1.250E+00").
Proof.
  split_and!.
  - apply (proj1 (proj1 spot_error_iff_no_match (text "+1.2E+00"))).
    vm_compute. reflexivity.
  - apply (proj1 (proj2 spot_error_iff_no_match) (text "hello")).
    vm_compute. reflexivity.
  - apply (proj1 (proj2 (proj2 spot_error_iff_no_match)) None
             (text "+1.250E+00") (text " V") I).
    apply (ValueToken "+" (text "1") (text "250") "+" "0" "0")%char;
      (reflexivity || (simpl; lia)).
Defined.

(** C9. Every record of a successful [parse_spot_measurement_response] is
    a dictionary with exactly the keys status, chnr, dtype and value; value
    maps to a float, and each of the other three to a string of one
    character or to None. *)
Theorem spot_record_keys s d :
  parse_spot_measurement_response s = inr d →
  dom d = {["status"; "chnr"; "dtype"; "value"]}%string
  ∧ (∃ f, d !! "value"%string = Some (PyFloat f))
  ∧ ∀ key, key ∈ ["status"; "chnr"; "dtype"]%string →
      d !! key = Some PyNone ∨ ∃ c, d !! key = Some (PyStr [c]).
Proof.
  intros (pre & tok & rest & f & _ & _ & _ & _ & ->)%parse_spot_sound.
  split_and!.
  - unfold spot_record. simpl list_to_map.
    rewrite !dom_insert_L, dom_empty_L. set_solver.
  - by exists f.
  - intros key Hkey. rewrite !elem_of_cons, elem_of_nil in Hkey.
    destruct pre as [[[c1 c2] c3]|].
    + right. destruct Hkey as [-> | [-> | [-> | []]]]; eauto.
    + left. by destruct Hkey as [-> | [-> | [-> | []]]].
Qed.

Lemma spot_record_keys_witness :
  dom (spot_record (Some ("N", "1", "I")%char) (float_literal "-0.0125"))
  = {["status"; "chnr"; "dtype"; "value"]}%string
  ∧ (∃ f, spot_record (Some ("N", "1", "I")%char) (float_literal "-0.0125")
            !! "value"%string = Some (PyFloat f))
  ∧ ∀ key, key ∈ ["status"; "chnr"; "dtype"]%string →
      spot_record (Some ("N", "1", "I")%char) (float_literal "-0.0125") !! key
        = Some PyNone
      ∨ ∃ c, spot_record (Some ("N", "1", "I")%char) (float_literal "-0.0125")
               !! key = Some (PyStr [c]).
Proof.
  apply (spot_record_keys (text "N1I-12.500E-03")).
  vm_compute. reflexivity.
Defined.

(** C10. For every string made of exactly one or exactly two word
    characters followed by a numeric token, such as W+001.2345E+06,
    [parse_spot_measurement_response] raises the parse error: a prefix of
    one or two characters is neither accepted nor skipped. *)
Theorem spot_partial_prefix_rejected tok :
  value_token tok →
  (∀ c1,
     Chars.is_word c1 = true →
     parse_spot_measurement_response (c1 :: tok) = inl (no_match (c1 :: tok)))
  ∧ (∀ c1 c2,
       Chars.is_word c1 = true →
       Chars.is_word c2 = true →
       parse_spot_measurement_response (c1 :: c2 :: tok)
       = inl (no_match (c1 :: c2 :: tok))).
Proof.
  intros (sg & t & -> & Hsg)%value_token_head.
  apply sign_not_word in Hsg.
  split; [intros c1 H1|intros c1 c2 H1 H2]; apply parse_spot_no_match.
  - intros (pre & tok & rest & Hpre & Htok & Heq).
    apply value_token_head in Htok as (sg' & t' & -> & Hsg').
    apply sign_not_word in Hsg'.
    destruct pre as [[[a b] c]|]; simpl in *; simplify_eq; [|congruence].
    destruct Hpre as (_ & ? & _). congruence.
  - intros (pre & tok & rest & Hpre & Htok & Heq).
    apply value_token_head in Htok as (sg' & t' & -> & Hsg').
    apply sign_not_word in Hsg'.
    destruct pre as [[[a b] c]|]; simpl in *; simplify_eq; [|congruence].
    destruct Hpre as (_ & _ & ?). congruence.
Qed.

Lemma spot_partial_prefix_rejected_witness :
  parse_spot_measurement_response (text "W+001.2345E+06")
  = inl (no_match (text "W+001.2345E+06")).
Proof.
  refine (proj1 (spot_partial_prefix_rejected (text "+001.2345E+06") _)
            "W"%char eq_refl).
  apply (ValueToken "+" (text "001") (text "2345") "+" "0" "6")%char;
    (reflexivity || (simpl; lia)).
Defined.

(* ================================================================== *)
(** * [parse_module_query_response] *)

Section ModuleParser.

Lemma length_groups_tuple p m : length (groups_tuple p m) = p_groups p.
Proof. unfold groups_tuple. by rewrite length_fmap, length_seq. Qed.

(** Every item of [findall] is a tuple with one entry per group. *)
Lemma findall_from_tuples p s : ∀ skip,
  Forall (λ t, length t = p_groups p) (findall_from p skip s).
Proof.
  induction s as [|a s IH]; intros skip; simpl.
  - destruct skip, (re_match p []); repeat constructor.
    apply length_groups_tuple.
  - destruct skip; [|apply IH].
    destruct (re_match p (a :: s)); [|apply IH].
    constructor; [apply length_groups_tuple|apply IH].
Qed.

(** The comprehension over the items numbered from [start] on: it does not
    raise, keeps what [acc] holds and adds, under its number, every model
    that is not "0". *)
Lemma slots_dict_spec l : ∀ start acc,
  0 < start →
  Forall (λ t : list str, length t = 2%nat) l →
  (∀ k, is_Some (acc !! k) → Zpos k < start) →
  ∃ d,
    slots_dict (enumerate start l) acc = inr d
    ∧ ∀ k model,
        d !! k = Some model ↔
        acc !! k = Some model
        ∨ ∃ i rev,
            l !! i = Some [model; rev] ∧ model ≠ text "0"
            ∧ Zpos k = start + Z.of_nat i.
Proof.
  induction l as [|t l IH]; intros start acc Hstart Hlen Hacc.
  - exists acc. split; [done|]. intros k model. split; [by left|].
    by intros [? | (i & rev & ? & _)].
  - apply Forall_cons in Hlen as [Ht Hlen].
    destruct t as [|model [|rev [|]]]; try done. clear Ht.
    destruct start as [|p|]; try done. simpl.
    case_bool_decide as Hmodel.
    + destruct (IH (Zpos p + 1) (<[p:=model]> acc)) as (d & -> & Hd);
        [lia|done| |].
      { intros k [x Hx]. destruct (decide (k = p)) as [-> | Hne]; [lia|].
        rewrite lookup_insert_ne in Hx by done.
        specialize (Hacc k (ex_intro _ x Hx)). lia. }
      exists d. split; [done|]. intros k x. rewrite Hd. split.
      * intros [Hx | (i & r & Hi & Hx & Hk)].
        -- destruct (decide (k = p)) as [-> | Hne].
           ++ rewrite lookup_insert_eq in Hx. simplify_eq.
              right. exists O, rev. split_and!; [done..|lia].
           ++ rewrite lookup_insert_ne in Hx by done. by left.
        -- right. exists (S i), r. split_and!; [done..|lia].
      * intros [Hx | (i & r & Hi & Hx & Hk)].
        -- left. rewrite lookup_insert_ne; [done|].
           intros <-. specialize (Hacc p (ex_intro _ x Hx)). lia.
        -- destruct i as [|i]; simpl in Hi.
           ++ simplify_eq. left. assert (k = p) as -> by lia.
              by rewrite lookup_insert_eq.
           ++ right. exists i, r. split_and!; [done..|lia].
    + destruct (IH (Zpos p + 1) acc) as (d & -> & Hd); [lia|done| |].
      { intros k Hk. specialize (Hacc k Hk). lia. }
      exists d. split; [done|]. intros k x. rewrite Hd. split.
      * intros [Hx | (i & r & Hi & Hx & Hk)]; [by left|].
        right. exists (S i), r. split_and!; [done..|lia].
      * intros [Hx | (i & r & Hi & Hx & Hk)]; [by left|].
        destruct i as [|i]; simpl in Hi.
        -- by simplify_eq.
        -- right. exists i, r. split_and!; [done..|lia].
Qed.

(** The match of one entry, with or without a semicolon before it. *)
Lemma module_match_entry (lead : bool) model rev rest :
  entry_ok (model, rev) →
  (∀ c t, rest = c :: t → Chars.is_digit c = false) →
  let before := if lead then [";"%char] else [] in
  re_match module_pattern (before ++ entry_text (model, rev) ++ rest)
  = Some {| m_text := before ++ entry_text (model, rev);
            m_groups := <[2%nat:=rev]> (<[1%nat:=model]> ∅) |}.
Proof.
  intros (Hm & Hw & Hr & Hd) Hrest before. simpl in *.
  assert (Hentry : ∀ t0,
    rep CsWord 1 None (model ++ ","%char :: rev ++ rest)
      (λ t rest0,
         match rest0 with
         | [] => None
         | a :: s' =>
             if bool_decide (a = ","%char)
             then rep CsDigit 1 None s'
                    (λ t1 _,
                       Some {| m_text := t0 ++ t ++ a :: t1;
                               m_groups := <[2%nat:=t1]> (<[1%nat:=t]> ∅) |})
             else None
         end)
    = Some {| m_text := t0 ++ model ++ ","%char :: rev;
              m_groups := <[2%nat:=rev]> (<[1%nat:=model]> ∅) |}).
  { intros t0.
    apply rep_take; [done|destruct model; [done|simpl; lia]|done| |].
    { by intros c r [= <- <-]. }
    rewrite bool_decide_eq_true_2 by done.
    apply rep_take; [done|destruct rev; [done|simpl; lia]|done| |done].
    intros c r -> Hc. simpl in Hc. by rewrite (Hrest c r eq_refl) in Hc. }
  unfold re_match, entry_text, before; simpl fst; simpl snd.
  rewrite <-!(assoc_L (++)). destruct lead; simpl.
  - apply first_some. apply (Hentry [";"%char]).
  - destruct model as [|a model]; [done|]. simpl in Hw.
    apply andb_true_iff in Hw as [Ha Hw].
    assert (a ≠ ";"%char) by (by intros ->).
    cbn [app]. rewrite bool_decide_eq_false_2 by done.
    apply (Hentry []).
Qed.

Lemma findall_skip p t : ∀ rest,
  findall_from p (length t) (t ++ rest) = findall_from p 0 rest.
Proof. induction t as [|c t IH]; intros rest; [done|apply IH]. Qed.

Lemma more_entries_head es c t :
  more_entries es = c :: t → Chars.is_digit c = false.
Proof. destruct es as [|e es]; [done|]. by intros [= <- _]. Qed.

Lemma findall_more_entries es :
  Forall entry_ok es →
  findall_from module_pattern 0 (more_entries es)
  = (λ e, [e.1; e.2]) <$> es.
Proof.
  induction 1 as [|[model rev] es He _ IH]; [done|].
  change (more_entries ((model, rev) :: es))
    with (";"%char :: entry_text (model, rev) ++ more_entries es).
  pose proof (module_match_entry true model rev (more_entries es) He
                (more_entries_head es)) as Hm.
  simpl in Hm. simpl findall_from. rewrite Hm. simpl.
  rewrite findall_skip, IH. done.
Qed.

(** On a well-formed inventory [findall] gives the entries, in order. *)
Lemma findall_inventory es :
  Forall entry_ok es →
  re_findall module_pattern (inventory_text es) = (λ e, [e.1; e.2]) <$> es.
Proof.
  intros Hes. destruct es as [|[model rev] es]; [done|].
  apply Forall_cons in Hes as [He Hes].
  pose proof (module_match_entry false model rev (more_entries es) He
                (more_entries_head es)) as Hm.
  simpl in Hm. unfold re_findall. simpl inventory_text.
  destruct He as (Hne & _). simpl in Hne.
  destruct model as [|a model]; [done|].
  simpl in *. rewrite Hm. simpl.
  by rewrite findall_skip, (findall_more_entries es Hes).
Qed.

End ModuleParser.

(** The parser returns, and its mapping has a key for the k-th match
    exactly when the model of that match is not "0". *)
Lemma module_query_spec response :
  ∃ d,
    parse_module_query_response response = inr d
    ∧ ∀ (k : positive) model,
        d !! k = Some model ↔
        model ≠ text "0"
        ∧ ∃ rev,
            re_findall module_pattern response !! (Pos.to_nat k - 1)%nat
            = Some [model; rev].
Proof.
  unfold parse_module_query_response.
  destruct (slots_dict_spec (re_findall module_pattern response) 1 ∅)
    as (d & -> & Hd);
    [lia|apply (findall_from_tuples module_pattern)|by intros k [? ?]|].
  exists d. split; [done|]. intros k model. rewrite Hd. split.
  - intros [? | (i & rev & Hi & Hm & Hk)]; [done|].
    split; [done|]. exists rev. by replace (Pos.to_nat k - 1)%nat with i by lia.
  - intros (Hm & rev & Hi). right.
    exists (Pos.to_nat k - 1)%nat, rev. split_and!; [done..|lia].
Qed.

(** On a well-formed inventory the keys are the positions of the entries
    whose model is not "0". *)
Lemma module_query_inventory es :
  Forall entry_ok es →
  ∃ d,
    parse_module_query_response (inventory_text es) = inr d
    ∧ ∀ (k : positive) model,
        d !! k = Some model ↔
        model ≠ text "0"
        ∧ ∃ rev, es !! (Pos.to_nat k - 1)%nat = Some (model, rev).
Proof.
  intros Hes. destruct (module_query_spec (inventory_text es)) as (d & Hd & Hk).
  exists d. split; [done|]. intros k model.
  rewrite Hk, findall_inventory, list_lookup_fmap by done.
  apply and_iff_compat_l. split.
  - intros (rev & Hi). destruct (es !! _) as [[m r]|]; [|done].
    simpl in Hi. simplify_eq. by exists rev.
  - intros (rev & ->). by exists rev.
Qed.

(** C2. For every inventory response, [parse_module_query_response]
    returns a mapping whose keys are the positions 1, 2, ... of the
    non-overlapping matches of the pattern (an optional semicolon, a word
    token, a comma, a run of digits) in scan order, without the positions
    whose model token is the string 0; each key maps to the model token of
    its match. On a well-formed inventory the matches are its entries.
    The input A,1;0,2;B,3 gives 1: A and 3: B. *)
Theorem module_query_slots :
  (∀ response,
     ∃ d,
       parse_module_query_response response = inr d
       ∧ ∀ (k : positive) model,
           d !! k = Some model ↔
           model ≠ text "0"
           ∧ ∃ rev,
               re_findall module_pattern response !! (Pos.to_nat k - 1)%nat
               = Some [model; rev])
  ∧ (∀ es,
       Forall entry_ok es →
       ∃ d,
         parse_module_query_response (inventory_text es) = inr d
         ∧ ∀ (k : positive) model,
             d !! k = Some model ↔
             model ≠ text "0"
             ∧ ∃ rev, es !! (Pos.to_nat k - 1)%nat = Some (model, rev))
  ∧ parse_module_query_response (text "A,1;0,2;B,3")
    = inr {[ 1%positive := text "A"; 3%positive := text "B" ]}.
Proof.
  split_and!;
    [apply module_query_spec|apply module_query_inventory|by vm_compute].
Qed.

Lemma module_query_slots_witness :
  ∃ d,
    parse_module_query_response (text "B1517A,0;0,0;B1520A,12") = inr d
    ∧ ∀ (k : positive) model,
        d !! k = Some model ↔
        model ≠ text "0"
        ∧ ∃ rev,
            [(text "B1517A", text "0"); (text "0", text "0");
             (text "B1520A", text "12")] !! (Pos.to_nat k - 1)%nat
            = Some (model, rev).
Proof.
  apply (proj1 (proj2 module_query_slots)
           [(text "B1517A", text "0"); (text "0", text "0");
            (text "B1520A", text "12")]).
  repeat constructor; simpl; discriminate.
Defined.

(** C6. [parse_module_query_response] raises on no input: it returns a
    mapping for every string; when the pattern matches nowhere, and so for
    the empty string, the mapping is empty. *)
Theorem module_query_never_raises :
  (∀ response, ∃ d, parse_module_query_response response = inr d)
  ∧ (∀ response,
       re_findall module_pattern response = [] →
       parse_module_query_response response = inr ∅)
  ∧ parse_module_query_response [] = inr ∅.
Proof.
  split_and!.
  - intros response. destruct (module_query_spec response) as (d & ? & _).
    by exists d.
  - intros response Hnone. unfold parse_module_query_response.
    by rewrite Hnone.
  - reflexivity.
Qed.

Lemma module_query_never_raises_witness :
  parse_module_query_response (text "ERROR: no modules; 12") = inr ∅.
Proof.
  apply (proj1 (proj2 module_query_never_raises)).
  vm_compute. reflexivity.
Defined.

(* ================================================================== *)
(** * [is_enabled] *)

Section Enabled.

Lemma py_split_not_nil sep s : py_split sep s ≠ [].
Proof.
  destruct s as [|c s]; simpl; [done|].
  case_bool_decide; [done|]. by destruct (py_split sep s).
Qed.

Lemma py_split_app sep a : ∀ b,
  py_split sep (a ++ sep :: b) = py_split sep a ++ py_split sep b.
Proof.
  induction a as [|c a IH]; intros b; simpl.
  - by rewrite bool_decide_eq_true_2.
  - rewrite IH. case_bool_decide; [done|].
    pose proof (py_split_not_nil sep a). by destruct (py_split sep a).
Qed.

(** The pieces of a text hold its characters other than the separator. *)
Lemma py_split_pieces (f : ascii → bool) sep s :
  Forall (λ c, c = sep ∨ f c = true) s →
  Forall (λ piece, forallb f piece = true) (py_split sep s).
Proof.
  induction 1 as [|c s Hc _ IH]; simpl; [by repeat constructor|].
  case_bool_decide as Hsep; [by constructor|].
  pose proof (py_split_not_nil sep s).
  destruct (py_split sep s) as [|piece pieces]; [done|].
  apply Forall_cons in IH as [Hp Hps]. constructor; [|done].
  simpl. destruct Hc as [? | ->]; done.
Qed.

(** What is left of a response holds commas and digits only. *)
Lemma re_sub_keeps cs s :
  Forall (λ c, mem cs c = false) (re_sub cs [] s).
Proof.
  unfold re_sub. induction s as [|c s IH]; simpl; [constructor|].
  destruct (mem cs c) eqn:Hc; simpl; [done|by constructor].
Qed.

Lemma re_sub_all cs s :
  Forall (λ c, mem cs c = true) s → re_sub cs [] s = [].
Proof.
  unfold re_sub. induction 1 as [|c s Hc _ IH]; [done|].
  simpl. by rewrite Hc.
Qed.

Lemma activated_channels_digits response :
  Forall (λ piece, forallb Chars.is_digit piece = true)
    (activated_channels response).
Proof.
  apply py_split_pieces. eapply Forall_impl; [apply re_sub_keeps|].
  intros c Hc. simpl in Hc. apply negb_false_iff, orb_true_iff in Hc.
  destruct Hc as [Hc | Hc]; [left|by right].
  apply bool_decide_eq_true in Hc. by apply list_elem_of_singleton in Hc.
Qed.

Lemma py_int_digits piece :
  forallb Chars.is_digit piece = true →
  py_int piece
  = match piece with
    | [] => inl int_of_nothing
    | _ :: _ => inr (Chars.digits_value piece)
    end.
Proof. unfold py_int. intros ->. by destruct piece. Qed.

(** Converting pieces made of digits fails exactly on an empty piece. *)
Lemma mapM_py_int pieces :
  Forall (λ piece, forallb Chars.is_digit piece = true) pieces →
  mapM py_int pieces
  = if bool_decide ([] ∈ pieces) then inl int_of_nothing
    else inr (Chars.digits_value <$> pieces).
Proof.
  induction 1 as [|piece pieces Hp _ IH]; [done|].
  change (mapM py_int (piece :: pieces))
    with (y ← py_int piece; k ← mapM py_int pieces; mret (y :: k)).
  rewrite (py_int_digits _ Hp), IH.
  destruct piece as [|c piece]; simpl; [done|].
  destruct (decide ([] ∈ pieces)) as [Hin | Hin].
  - rewrite !bool_decide_eq_true_2; [done|by apply elem_of_cons; right|done].
  - rewrite !bool_decide_eq_false_2; [done| |done].
    by intros [? | ?]%elem_of_cons.
Qed.

(** What [is_enabled] makes of a response: an error when a piece is empty,
    and the comparison of the two sets otherwise. *)
Lemma is_enabled_of_response_spec chans response :
  is_enabled_of_response chans response
  = if bool_decide ([] ∈ activated_channels response)
    then inl int_of_nothing
    else inr (bool_decide
           ((list_to_set chans : gset Z)
            ⊆ list_to_set (Chars.digits_value <$> activated_channels response))).
Proof.
  unfold is_enabled_of_response.
  rewrite mapM_py_int by apply activated_channels_digits.
  by case_bool_decide.
Qed.

(** Without an empty piece [is_enabled] returns, and returns true exactly
    when every channel of the module is among the integers reported. *)
Lemma is_enabled_subset_test chans response :
  [] ∉ activated_channels response →
  ∃ b,
    is_enabled_of_response chans response = inr b
    ∧ (b = true ↔
       ∀ c, c ∈ chans →
            c ∈ Chars.digits_value <$> activated_channels response).
Proof.
  intros Hne. rewrite is_enabled_of_response_spec.
  rewrite bool_decide_eq_false_2 by done. eexists. split; [done|].
  rewrite bool_decide_eq_true. set_solver.
Qed.

End Enabled.

(** C1. The claim: for every module and every response, [is_enabled]
    returns true exactly when the channels of the module are among the
    integers left after dropping all but digits and commas and splitting
    at the commas; with channels 1 and 2 and a response whose only digit
    content is 1 it returns false. The code does so on CN1 and on
    CN1,2,3, but on 1, and on CL, where a piece is empty, it raises the
    error of [int] and returns nothing. *)
Theorem is_enabled_empty_piece_cases :
  is_enabled_of_response [1; 2] (text "1,") = inl int_of_nothing
  ∧ is_enabled_of_response [1; 2] (text "CL") = inl int_of_nothing
  ∧ is_enabled_of_response [] (text "CL") = inl int_of_nothing
  ∧ is_enabled_of_response [1; 2] (text "CN1") = inr false
  ∧ is_enabled_of_response [1; 2] (text "CN1,2,3") = inr true.
Proof. split_and!; vm_compute; reflexivity. Qed.

(** C7. [enable_outputs] builds the command that closes the relays of all
    the channels of the module and sends exactly that command, with no
    value of its own; [disable_outputs] does so with the command that
    opens them. Both leave the channels and the slot of the module as
    they were. *)
Theorem relay_commands_target_all_channels {Instr MB : Type}
    (write : str → Instr → result unit * Instr)
    (MessageBuilder : MB) (cn cl : list Z → MB → MB) (message : MB → str)
    (self : B1500Module) (i : Instr) :
  let close_relays := message (cn (channels self) MessageBuilder) in
  let open_relays := message (cl (channels self) MessageBuilder) in
  let on := enable_outputs write MessageBuilder cn message self i in
  let off := disable_outputs write MessageBuilder cl message self i in
  on = ((write close_relays i).1, (self, (write close_relays i).2))
  ∧ off = ((write open_relays i).1, (self, (write open_relays i).2))
  ∧ channels on.2.1 = channels self ∧ slot_nr on.2.1 = slot_nr self
  ∧ channels off.2.1 = channels self ∧ slot_nr off.2.1 = slot_nr self.
Proof.
  simpl. unfold enable_outputs, disable_outputs.
  destruct (write (message (cn _ _)) i), (write (message (cl _ _)) i).
  by split_and!.
Qed.

(** On the stand-in instrument: one more message in the record of what
    was sent, the command over all the channels. *)
Lemma relay_commands_recorded {MB : Type} (MessageBuilder : MB)
    (cn cl : list Z → MB → MB) (message : MB → str)
    (self : B1500Module) (log : list str) (ans : str) :
  enable_outputs stub_write MessageBuilder cn message self
    {| sent := log; answer := ans |}
  = (inr (),
     (self,
      {| sent := log ++ [message (cn (channels self) MessageBuilder)];
         answer := ans |}))
  ∧ disable_outputs stub_write MessageBuilder cl message self
      {| sent := log; answer := ans |}
    = (inr (),
       (self,
        {| sent := log ++ [message (cl (channels self) MessageBuilder)];
           answer := ans |})).
Proof. done. Qed.



(* ================================================================== *)
(** * More on [parse_module_query_response] *)

Section ModuleMatches.

Lemma digit_word c : Chars.is_digit c = true → Chars.is_word c = true.
Proof.
  unfold Chars.is_digit, Chars.is_word, Chars.is_alnum. by intros ->.
Qed.

(** Whatever the inventory pattern matches is an entry, with or without a
    semicolon before it. *)
Lemma module_match_sound s m :
  re_match module_pattern s = Some m →
  ∃ model rev,
    entry_ok (model, rev)
    ∧ groups_tuple module_pattern m = [model; rev]
    ∧ (m_text m = entry_text (model, rev)
       ∨ m_text m = ";"%char :: entry_text (model, rev)).
Proof.
  unfold re_match.
  intros (t & rest & g' & -> & Hm & [= <-])%run_sound. simpl in Hm.
  inversion Hm as [| | | | |? ? ? t1 g1 t2 g2 Hopt Hent|]; subst; clear Hm.
  assert (g1 = ∅ ∧ (t1 = [] ∨ t1 = [";"%char])) as [-> Ht1].
  { inversion Hopt as [| | |? ? ? ? Hc| | |]; subst; [|by auto].
    inversion Hc; subst. by auto. }
  clear Hopt.
  inversion Hent as [| | | | |? ? ? model g2' t3 g3 Hmodel Htail|];
    subst; clear Hent.
  inversion Hmodel as [| | | | | |? ? ? ? ? Hw]; subst; clear Hmodel.
  inversion Hw as [| |? ? ? ? ? Hwf Hwl _| | | |]; subst; clear Hw.
  inversion Htail as [| | | | |? ? ? tc g4 rev g5 Hcomma Hrev|];
    subst; clear Htail.
  inversion Hcomma; subst; clear Hcomma.
  inversion Hrev as [| | | | | |? ? ? ? ? Hd]; subst; clear Hrev.
  inversion Hd as [| |? ? ? ? ? Hdf Hdl _| | | |]; subst; clear Hd.
  exists model, rev. split_and!.
  - unfold entry_ok. simpl.
    split_and!; [|done| |done]; intros ->; simpl in *; lia.
  - done.
  - destruct Ht1 as [-> | ->]; [by left|by right].
Qed.

(** Every item of [findall] on the inventory pattern is an entry. *)
Lemma findall_from_entries s : ∀ skip,
  Forall (λ t, ∃ model rev, t = [model; rev] ∧ entry_ok (model, rev))
    (findall_from module_pattern skip s).
Proof.
  assert (Hitem : ∀ s' m, re_match module_pattern s' = Some m →
    ∃ model rev,
      groups_tuple module_pattern m = [model; rev] ∧ entry_ok (model, rev)).
  { intros s' m (model & rev & ? & ? & _)%module_match_sound. eauto. }
  induction s as [|a s IH]; intros skip; simpl.
  - destruct skip; constructor.
  - destruct skip; [|apply IH].
    destruct (re_match module_pattern (a :: s)) eqn:Hm; [|apply IH].
    constructor; [by eapply Hitem|apply IH].
Qed.

(** The number of keys the comprehension adds. *)
Lemma slots_dict_size l : ∀ start acc,
  0 < start →
  Forall (λ t : list str, length t = 2%nat) l →
  (∀ k, is_Some (acc !! k) → Zpos k < start) →
  ∃ d,
    slots_dict (enumerate start l) acc = inr d
    ∧ size d
      = (size acc
         + length (filter (λ t : list str, t !! 0%nat ≠ Some (text "0")) l))%nat.
Proof.
  induction l as [|t l IH]; intros start acc Hstart Hlen Hacc.
  - exists acc. split; [done|]. simpl. lia.
  - apply Forall_cons in Hlen as [Ht Hlen].
    destruct t as [|model [|rev [|]]]; try done. clear Ht.
    destruct start as [|p|]; try done. simpl.
    case_bool_decide as Hmodel.
    + destruct (IH (Zpos p + 1) (<[p:=model]> acc)) as (d & -> & Hd);
        [lia|done| |].
      { intros k [x Hx]. destruct (decide (k = p)) as [-> | Hne]; [lia|].
        rewrite lookup_insert_ne in Hx by done.
        specialize (Hacc k (ex_intro _ x Hx)). lia. }
      exists d. split; [done|]. rewrite Hd.
      rewrite map_size_insert_None.
      * rewrite filter_cons_True; [simpl; lia|]. simpl. congruence.
      * destruct (acc !! p) as [x|] eqn:Hp; [|done].
        specialize (Hacc p (ex_intro _ x Hp)). lia.
    + destruct (IH (Zpos p + 1) acc) as (d & -> & Hd); [lia|done| |].
      { intros k Hk. specialize (Hacc k Hk). lia. }
      exists d. split; [done|]. rewrite Hd.
      rewrite filter_cons_False; [done|]. simpl. intros Hne.
      destruct Hne. by rewrite Hmodel.
Qed.

End ModuleMatches.

(** X1. Every model name in a mapping [parse_module_query_response]
    returns is a non-empty run of word characters other than the string 0,
    whatever the response. *)
Theorem module_query_values response d k model :
  parse_module_query_response response = inr d →
  d !! k = Some model →
  model ≠ [] ∧ forallb Chars.is_word model = true ∧ model ≠ text "0".
Proof.
  intros Hd Hk.
  destruct (module_query_spec response) as (d' & Hd' & Hspec).
  rewrite Hd in Hd'. simplify_eq.
  apply Hspec in Hk as (Hne & rev & Hi).
  pose proof (findall_from_entries response 0) as Hall.
  rewrite Forall_lookup in Hall.
  destruct (Hall _ _ Hi) as (m & r & [= <- <-] & Hm & Hw & _).
  done.
Qed.

Lemma module_query_values_witness :
  text "B1520A" ≠ [] ∧ forallb Chars.is_word (text "B1520A") = true
  ∧ text "B1520A" ≠ text "0".
Proof.
  apply (module_query_values (text "B1517A,0;0,0;B1520A,12")
           {[ 1%positive := text "B1517A"; 3%positive := text "B1520A" ]}
           3%positive).
  - vm_compute. reflexivity.
  - vm_compute. reflexivity.
Defined.

(** X2. The mapping has one key for every match whose model is not the
    string 0, and no key beyond the number of matches. *)
Theorem module_query_size response :
  ∃ d,
    parse_module_query_response response = inr d
    ∧ size d
      = length (filter (λ t : list str, t !! 0%nat ≠ Some (text "0"))
                  (re_findall module_pattern response))
    ∧ ∀ k, is_Some (d !! k) →
        (Pos.to_nat k ≤ length (re_findall module_pattern response))%nat.
Proof.
  destruct (module_query_spec response) as (d & Hd & Hspec).
  exists d. split_and!; [done| |].
  - unfold parse_module_query_response in Hd.
    destruct (slots_dict_size (re_findall module_pattern response) 1 ∅)
      as (d' & Hd' & Hsize);
      [lia|apply (findall_from_tuples module_pattern)|by intros ? [? ?]|].
    rewrite Hd in Hd'. simplify_eq. by rewrite Hsize, map_size_empty.
  - intros k [model Hk]. apply Hspec in Hk as (_ & rev & Hi).
    apply lookup_lt_Some in Hi. lia.
Qed.

Section Inventories.

Lemma more_entries_tail_head es tail c t :
  (∀ c t, tail = c :: t → Chars.is_digit c = false) →
  more_entries es ++ tail = c :: t → Chars.is_digit c = false.
Proof.
  intros Htail. destruct es as [|e es]; [apply Htail|]. by intros [= <- _].
Qed.

(** The entries of an inventory are found whatever follows it, as long as
    that does not begin with a digit. *)
Lemma findall_more_entries_tail es tail :
  Forall entry_ok es →
  (∀ c t, tail = c :: t → Chars.is_digit c = false) →
  findall_from module_pattern 0 (more_entries es ++ tail)
  = ((λ e, [e.1; e.2]) <$> es) ++ findall_from module_pattern 0 tail.
Proof.
  intros Hes Htail. induction Hes as [|[model rev] es He _ IH]; [done|].
  change (more_entries ((model, rev) :: es) ++ tail)
    with (";"%char :: (entry_text (model, rev) ++ more_entries es) ++ tail).
  rewrite <-(assoc_L (++)).
  pose proof (module_match_entry true model rev (more_entries es ++ tail) He
                (λ c t, more_entries_tail_head es tail c t Htail)) as Hm.
  simpl in Hm. simpl findall_from. rewrite Hm. simpl.
  rewrite findall_skip, IH. done.
Qed.

Lemma findall_inventory_tail es tail :
  Forall entry_ok es →
  (∀ c t, tail = c :: t → Chars.is_digit c = false) →
  re_findall module_pattern (inventory_text es ++ tail)
  = ((λ e, [e.1; e.2]) <$> es) ++ re_findall module_pattern tail.
Proof.
  intros Hes Htail. destruct es as [|[model rev] es]; [done|].
  apply Forall_cons in Hes as [He Hes].
  pose proof (module_match_entry false model rev (more_entries es ++ tail) He
                (λ c t, more_entries_tail_head es tail c t Htail)) as Hm.
  simpl in Hm. unfold re_findall. simpl inventory_text.
  rewrite <-(assoc_L (++)).
  destruct He as (Hne & _). simpl in Hne.
  destruct model as [|a model]; [done|].
  simpl in *. rewrite Hm. simpl.
  by rewrite findall_skip, (findall_more_entries_tail es tail Hes Htail).
Qed.

(** Nothing is found in a text without word characters. *)
Lemma findall_no_word junk :
  Forall (λ c, Chars.is_word c = false) junk →
  findall_from module_pattern 0 junk = [].
Proof.
  induction 1 as [|c junk Hc Hjunk IH]; [done|].
  assert (re_match module_pattern (c :: junk) = None) as Hm.
  { unfold re_match. simpl. rewrite Hc.
    case_bool_decide; [|done].
    destruct Hjunk as [|c' junk' Hc' _]; [done|]. simpl. by rewrite Hc'. }
  simpl findall_from. by rewrite Hm.
Qed.

(** A character that is no word character and no semicolon is passed
    over. *)
Lemma findall_skip_junk lead s :
  Forall (λ c, Chars.is_word c = false ∧ c ≠ ";"%char) lead →
  re_findall module_pattern (lead ++ s) = re_findall module_pattern s.
Proof.
  unfold re_findall. induction 1 as [|c lead [Hc Hsemi] _ IH]; [done|].
  assert (re_match module_pattern (c :: lead ++ s) = None) as Hm.
  { unfold re_match. simpl. by rewrite Hc, bool_decide_eq_false_2. }
  simpl findall_from. by rewrite Hm.
Qed.

(** The mapping of a well-formed inventory, by its entries. *)
Lemma inventory_lookup es d (k : positive) x :
  Forall entry_ok es →
  parse_module_query_response (inventory_text es) = inr d →
  d !! k = Some x ↔
  x ≠ text "0" ∧ ∃ rev, es !! (Pos.to_nat k - 1)%nat = Some (x, rev).
Proof.
  intros Hes Hd. destruct (module_query_inventory es Hes) as (d' & Hd' & Hk).
  rewrite Hd in Hd'. simplify_eq. apply Hk.
Qed.

End Inventories.

(** X3. Adding an entry at the end of a well-formed inventory adds its
    model under the next slot number, or changes nothing when the model is
    the string 0. *)
Theorem module_query_append es model rev d :
  Forall entry_ok es →
  entry_ok (model, rev) →
  parse_module_query_response (inventory_text es) = inr d →
  parse_module_query_response (inventory_text (es ++ [(model, rev)]))
  = inr (if bool_decide (model = text "0") then d
         else <[Pos.of_nat (S (length es)):=model]> d).
Proof.
  intros Hes He Hd.
  assert (Forall entry_ok (es ++ [(model, rev)])) as Hes'.
  { apply Forall_app. split; [done|]. constructor; [done|constructor]. }
  destruct (module_query_inventory _ Hes') as (d' & -> & Hd').
  f_equal. apply map_eq. intros k. apply option_eq. intros x.
  rewrite Hd'. clear Hd'.
  assert (Hlast : ∀ r, (es ++ [(model, rev)]) !! (Pos.to_nat k - 1)%nat
                       = Some (x, r) ↔
            es !! (Pos.to_nat k - 1)%nat = Some (x, r)
            ∨ (k = Pos.of_nat (S (length es)) ∧ x = model ∧ r = rev)).
  { intros r. rewrite lookup_app. destruct (es !! _) as [e|] eqn:Hi.
    - apply lookup_lt_Some in Hi. split; [by left|].
      intros [? | (-> & _)]; [done|]. lia.
    - apply lookup_ge_None in Hi. split.
      + intros Hx. apply list_lookup_singleton_Some in Hx as [Hk [= <- <-]].
        right. split; [lia|done].
      + intros [? | (-> & -> & ->)]; [done|].
        by replace (Pos.to_nat (Pos.of_nat (S (length es))) - 1
                    - length es)%nat with O by lia. }
  case_bool_decide as Hzero.
  - rewrite (inventory_lookup es d k x Hes Hd). split.
    + intros (Hx & r & [? | (_ & -> & _)]%Hlast); [|done].
      split; [done|by exists r].
    + intros (Hx & r & ?). split; [done|]. exists r. apply Hlast. by left.
  - destruct (decide (k = Pos.of_nat (S (length es)))) as [-> | Hk].
    + rewrite lookup_insert_eq. split.
      * intros (_ & r & [Hi | (_ & -> & _)]%Hlast); [|done].
        apply lookup_lt_Some in Hi. lia.
      * intros [= <-]. split; [done|]. exists rev. apply Hlast. by right.
    + rewrite lookup_insert_ne by done.
      rewrite (inventory_lookup es d k x Hes Hd). apply and_iff_compat_l.
      split.
      * intros (r & [? | (? & _)]%Hlast); [by exists r|done].
      * intros (r & ?). exists r. apply Hlast. by left.
Qed.

Lemma module_query_append_witness :
  parse_module_query_response
    (inventory_text ([(text "B1517A", text "0")] ++ [(text "B1520A", text "12")]))
  = inr (if bool_decide (text "B1520A" = text "0")
         then {[ 1%positive := text "B1517A" ]}
         else <[Pos.of_nat 2:=text "B1520A"]> {[ 1%positive := text "B1517A" ]}).
Proof.
  apply (module_query_append [(text "B1517A", text "0")]
           (text "B1520A") (text "12") {[ 1%positive := text "B1517A" ]}).
  - repeat constructor; simpl; discriminate.
  - repeat constructor; simpl; discriminate.
  - vm_compute. reflexivity.
Defined.

(** X4. The revisions are never read: two well-formed inventories with the
    same models in the same order give the same mapping. *)
Theorem module_query_ignores_revisions es es' :
  Forall entry_ok es →
  Forall entry_ok es' →
  es.*1 = es'.*1 →
  parse_module_query_response (inventory_text es)
  = parse_module_query_response (inventory_text es').
Proof.
  intros Hes Hes' Hmodels.
  destruct (module_query_inventory es Hes) as (d & Hd & Hk).
  destruct (module_query_inventory es' Hes') as (d' & Hd' & Hk').
  rewrite Hd, Hd'. f_equal. apply map_eq. intros k. apply option_eq.
  intros x. rewrite Hk, Hk'. apply and_iff_compat_l.
  assert (Hfst : ∀ l : list (str * str),
            (∃ rev, l !! (Pos.to_nat k - 1)%nat = Some (x, rev))
            ↔ l.*1 !! (Pos.to_nat k - 1)%nat = Some x).
  { intros l. rewrite list_lookup_fmap. split.
    - by intros (rev & ->).
    - destruct (l !! _) as [[m r]|]; [|done]. intros [= <-]. by exists r. }
  by rewrite !Hfst, Hmodels.
Qed.

Lemma module_query_ignores_revisions_witness :
  parse_module_query_response
    (inventory_text [(text "B1517A", text "0"); (text "0", text "0")])
  = parse_module_query_response
      (inventory_text [(text "B1517A", text "17"); (text "0", text "3")]).
Proof.
  apply module_query_ignores_revisions.
  - repeat constructor; simpl; discriminate.
  - repeat constructor; simpl; discriminate.
  - reflexivity.
Defined.

(** X5. Text around a well-formed inventory does not change the mapping:
    characters before it that are neither word characters nor semicolons,
    and characters after it that are no word characters, such as blanks
    and line ends. *)
Theorem module_query_ignores_junk lead es trail :
  Forall entry_ok es →
  Forall (λ c, Chars.is_word c = false ∧ c ≠ ";"%char) lead →
  Forall (λ c, Chars.is_word c = false) trail →
  parse_module_query_response (lead ++ inventory_text es ++ trail)
  = parse_module_query_response (inventory_text es).
Proof.
  intros Hes Hlead Htrail. unfold parse_module_query_response.
  rewrite (findall_skip_junk lead _ Hlead).
  assert (Hhead : ∀ c t, trail = c :: t → Chars.is_digit c = false).
  { intros c t ->. apply Forall_cons in Htrail as [Hc _].
    destruct (Chars.is_digit c) eqn:Hd; [|done].
    apply digit_word in Hd. congruence. }
  rewrite (findall_inventory_tail es trail Hes Hhead).
  rewrite (findall_inventory es Hes).
  unfold re_findall. by rewrite (findall_no_word trail Htrail), app_nil_r.
Qed.

Lemma module_query_ignores_junk_witness :
  parse_module_query_response
    (text " " ++ inventory_text [(text "B1517A", text "0")]
       ++ [" "; "010"]%char)
  = parse_module_query_response (inventory_text [(text "B1517A", text "0")]).
Proof.
  apply module_query_ignores_junk.
  - repeat constructor; simpl; discriminate.
  - repeat constructor; discriminate.
  - repeat constructor.
Defined.

(* ================================================================== *)
(** * More on [parse_spot_measurement_response] *)

Section SpotReadings.

Lemma value_token_length tok :
  value_token tok → (10 ≤ length tok ≤ 15)%nat.
Proof.
  intros [sg ip fp sg' e1 e2 _ _ Hip _ Hfp _ _ _].
  simpl. rewrite length_app. simpl. rewrite length_app. simpl. lia.
Qed.

Lemma prefix_text_length pre : (length (prefix_text pre) ≤ 3)%nat.
Proof. destruct pre as [[[??]?]|]; simpl; lia. Qed.

(** Where the sign stands tells whether there is a prefix. *)
Lemma prefix_unique pre pre' sg sg' (x y : str) :
  prefix_ok pre → prefix_ok pre' →
  Chars.is_sign sg = true → Chars.is_sign sg' = true →
  prefix_text pre ++ sg :: x = prefix_text pre' ++ sg' :: y →
  pre = pre' ∧ sg = sg' ∧ x = y.
Proof.
  intros Hpre Hpre' Hsg%sign_not_word Hsg'%sign_not_word Heq.
  destruct pre as [[[a b] c]|], pre' as [[[a' b'] c']|];
    simpl in *; simplify_eq; try done.
  - destruct Hpre as (? & _). congruence.
  - destruct Hpre' as (? & _). congruence.
Qed.

(** A run of digits before a character that is no digit is determined. *)
Lemma digit_run_unique (a b : str) x y (u v : str) :
  forallb Chars.is_digit a = true → forallb Chars.is_digit b = true →
  Chars.is_digit x = false → Chars.is_digit y = false →
  a ++ x :: u = b ++ y :: v →
  a = b ∧ x = y ∧ u = v.
Proof.
  intros Ha Hb Hx Hy Heq.
  assert (Chars.span Chars.is_digit (a ++ x :: u) = (a, x :: u)) as Hl
    by (apply span_app; [done|by intros ? ? [= <- <-]]).
  assert (Chars.span Chars.is_digit (b ++ y :: v) = (b, y :: v)) as Hr
    by (apply span_app; [done|by intros ? ? [= <- <-]]).
  rewrite Heq, Hr in Hl. by simplify_eq.
Qed.

Lemma forallb_lookup (f : ascii → bool) (l : str) i x :
  forallb f l = true → l !! i = Some x → f x = true.
Proof.
  revert i. induction l as [|c l IH]; intros i Hl Hi; [done|].
  simpl in Hl. apply andb_true_iff in Hl as [Hc Hl].
  destruct i as [|i]; simpl in Hi; [by simplify_eq|by eapply IH].
Qed.

(** A run of digits cannot be read as a shorter run followed by a
    character that is no digit. *)
Lemma digit_run_too_long (a ds : str) x (u v : str) :
  forallb Chars.is_digit ds = true →
  Chars.is_digit x = false →
  (length a < length ds)%nat →
  a ++ x :: u ≠ ds ++ v.
Proof.
  intros Hds Hx Hlen Heq.
  assert ((a ++ x :: u) !! length a = Some x) as Hl
    by (by apply list_lookup_middle).
  rewrite Heq, lookup_app_l in Hl by done.
  pose proof (forallb_lookup _ _ _ _ Hds Hl). congruence.
Qed.

End SpotReadings.

(** X6. The grammar of the spot measurement is not ambiguous: a response
    can be split into prefix, numeric token and rest in one way only. *)
Theorem spot_reading_unique pre tok rest pre' tok' rest' :
  prefix_ok pre → value_token tok →
  prefix_ok pre' → value_token tok' →
  prefix_text pre ++ tok ++ rest = prefix_text pre' ++ tok' ++ rest' →
  pre = pre' ∧ tok = tok' ∧ rest = rest'.
Proof.
  intros Hpre Htok Hpre' Htok' Heq.
  pose proof (spot_match_complete pre tok rest Hpre Htok) as Hm.
  rewrite Heq, (spot_match_complete pre' tok' rest' Hpre' Htok') in Hm.
  injection Hm as Htext Hgroups.
  assert (tok = tok') as <-.
  { apply (f_equal (.!! 5%nat)) in Hgroups. unfold spot_groups in Hgroups.
    rewrite !lookup_insert_eq in Hgroups. by simplify_eq. }
  rewrite !(assoc_L (++)), <-Htext in Heq.
  apply (inj (app _)) in Heq as <-.
  apply (inj (λ l, l ++ tok)) in Htext.
  split_and!; [|done..].
  destruct pre as [[[a b] c]|], pre' as [[[a' b'] c']|];
    simpl in *; by simplify_eq.
Qed.

Lemma spot_reading_unique_witness :
  Some ("N", "1", "I")%char = Some ("N", "1", "I")%char
  ∧ text "-12.500E-03" = text "-12.500E-03"
  ∧ text " A" = text " A".
Proof.
  assert (value_token (text "-12.500E-03")) as Htok.
  { apply (ValueToken "-" (text "12") (text "500") "-" "0" "3")%char;
      (reflexivity || (simpl; lia)). }
  apply (spot_reading_unique (Some ("N", "1", "I")%char)
           (text "-12.500E-03") (text " A")
           (Some ("N", "1", "I")%char) (text "-12.500E-03") (text " A"));
    [by vm_compute|exact Htok|by vm_compute|exact Htok|reflexivity].
Defined.

(** X7. A response of fewer than ten characters, the empty one among
    them, is always rejected with the parse error. *)
Theorem spot_short_rejected s :
  (length s < 10)%nat →
  parse_spot_measurement_response s = inl (no_match s).
Proof.
  intros Hlen. apply parse_spot_no_match.
  intros (pre & tok & rest & _ & Htok%value_token_length & ->).
  rewrite !length_app in Hlen. lia.
Qed.

Lemma spot_short_rejected_witness :
  parse_spot_measurement_response (text "+1.23E+00")
  = inl (no_match (text "+1.23E+00")).
Proof. apply spot_short_rejected. simpl. lia. Defined.

(** X8. Only the first 18 characters of a response are read: cutting the
    response after them gives the same record, and a response gives a
    record only if its first 18 characters do. *)
Theorem spot_reads_first_18 s d :
  parse_spot_measurement_response s = inr d
  ↔ parse_spot_measurement_response (take 18 s) = inr d.
Proof.
  split.
  - intros (pre & tok & rest & f & Hpre & Htok & -> & Hf & ->)%parse_spot_sound.
    pose proof (value_token_length _ Htok).
    pose proof (prefix_text_length pre).
    rewrite (assoc_L (++)), take_app_ge by (rewrite length_app; lia).
    rewrite <-(assoc_L (++)).
    destruct (parse_spot_complete pre tok
                (take (18 - length (prefix_text pre ++ tok)) rest) Hpre Htok)
      as (f' & Hf' & ->).
    congruence.
  - intros (pre & tok & rest & f & Hpre & Htok & Heq & Hf & ->)%parse_spot_sound.
    rewrite <-(take_drop 18 s), Heq, <-!(assoc_L (++)).
    destruct (parse_spot_complete pre tok (rest ++ drop 18 s) Hpre Htok)
      as (f' & Hf' & ->).
    congruence.
Qed.

(** X9. The bounds on the digits are enforced, not cut to size: a number
    with more than three integer digits, or with more than six fractional
    digits, is rejected with the parse error, with or without a prefix. *)
Theorem spot_digit_bounds_enforced pre sg :
  prefix_ok pre →
  Chars.is_sign sg = true →
  (∀ ds rest,
     forallb Chars.is_digit ds = true →
     (4 ≤ length ds)%nat →
     parse_spot_measurement_response (prefix_text pre ++ sg :: ds ++ rest)
     = inl (no_match (prefix_text pre ++ sg :: ds ++ rest)))
  ∧ (∀ ip fs rest,
       forallb Chars.is_digit ip = true →
       forallb Chars.is_digit fs = true →
       (7 ≤ length fs)%nat →
       parse_spot_measurement_response
         (prefix_text pre ++ sg :: ip ++ "."%char :: fs ++ rest)
       = inl (no_match (prefix_text pre ++ sg :: ip ++ "."%char :: fs ++ rest))).
Proof.
  intros Hpre Hsg. split.
  - intros ds rest Hds Hlen. apply parse_spot_no_match.
    intros (pre' & tok & rest' & Hpre' & Htok & Heq).
    destruct Htok as [sg' ip fp sg'' e1 e2 Hsg' Hip Hipl _ _ _ _ _].
    rewrite token_app in Heq.
    apply prefix_unique in Heq as (_ & _ & Heq); [|done..].
    symmetry in Heq. by apply digit_run_too_long in Heq; [|done..|lia].
  - intros ip fs rest Hip Hfs Hlen. apply parse_spot_no_match.
    intros (pre' & tok & rest' & Hpre' & Htok & Heq).
    destruct Htok as [sg' ip' fp sg'' e1 e2 Hsg' Hip' _ Hfp Hfpl _ _ _].
    rewrite token_app in Heq.
    apply prefix_unique in Heq as (_ & _ & Heq); [|done..].
    apply digit_run_unique in Heq as (_ & _ & Heq); [|done..].
    symmetry in Heq. by apply digit_run_too_long in Heq; [|done..|lia].
Qed.

Lemma spot_digit_bounds_enforced_witness :
  parse_spot_measurement_response (text "NAI+1234.500E+00")
  = inl (no_match (text "NAI+1234.500E+00"))
  ∧ parse_spot_measurement_response (text "+1.2345678E+00")
    = inl (no_match (text "+1.2345678E+00")).
Proof.
  split.
  - apply (proj1 (spot_digit_bounds_enforced (Some ("N", "A", "I")%char)
                    "+"%char ltac:(by vm_compute) eq_refl)
             (text "1234") (text ".500E+00")); [reflexivity|simpl; lia].
  - apply (proj2 (spot_digit_bounds_enforced None "+"%char I eq_refl)
             (text "1") (text "2345678") (text "E+00"));
      [reflexivity|reflexivity|simpl; lia].
Defined.

(** X10. Whether a record has the three prefix fields is decided by the
    first character of the response: they are None exactly when it is a
    sign. *)
Theorem spot_prefix_by_first_character s d :
  parse_spot_measurement_response s = inr d →
  d !! "status"%string = Some PyNone
  ↔ ∃ sg rest, s = sg :: rest ∧ Chars.is_sign sg = true.
Proof.
  intros (pre & tok & rest & f & Hpre & Htok & -> & _ & ->)%parse_spot_sound.
  destruct (value_token_head _ Htok) as (sg & t & -> & Hsg).
  destruct pre as [[[a b] c]|]; simpl.
  - split; [done|]. intros (sg' & rest' & [= <- _] & Hsg'%sign_not_word).
    destruct Hpre as (? & _). congruence.
  - split; [|done]. intros _. by exists sg, (t ++ rest).
Qed.

Lemma spot_prefix_by_first_character_witness :
  spot_record None (float_literal "2.5") !! "status"%string = Some PyNone
  ↔ ∃ sg rest, text "+002.500E+00" = sg :: rest ∧ Chars.is_sign sg = true.
Proof.
  apply (spot_prefix_by_first_character (text "+002.500E+00")).
  vm_compute. reflexivity.
Defined.

(* ================================================================== *)
(** * More on [is_enabled] *)

Section Pieces.

Lemma py_split_no_sep sep s : sep ∉ s → py_split sep s = [s].
Proof.
  induction s as [|c s IH]; intros Hs; [done|]. simpl.
  apply not_elem_of_cons in Hs as [Hc Hs].
  rewrite bool_decide_eq_false_2 by done. by rewrite IH.
Qed.

(** Splitting what was joined gives the pieces back. *)
Lemma py_split_join sep pieces :
  pieces ≠ [] →
  Forall (λ piece, sep ∉ piece) pieces →
  py_split sep (py_join sep pieces) = pieces.
Proof.
  intros Hne Hpieces.
  induction Hpieces as [|piece pieces Hp Hps IH]; [done|]. clear Hne.
  destruct pieces as [|piece' pieces]; [by apply py_split_no_sep|].
  change (py_join sep (piece :: piece' :: pieces))
    with (piece ++ sep :: py_join sep (piece' :: pieces)).
  rewrite py_split_app, py_split_no_sep, IH by done. done.
Qed.

(** Where the empty pieces of a split come from. *)
Lemma py_split_empty_piece sep s :
  ([] ∈ py_split sep s →
   s = [] ∨ (∃ r, s = sep :: r) ∨ (∃ r, s = r ++ [sep])
   ∨ ∃ a b, s = a ++ sep :: sep :: b)
  ∧ ([] ∈ tail (py_split sep s) →
     (∃ r, s = r ++ [sep]) ∨ ∃ a b, s = a ++ sep :: sep :: b).
Proof.
  induction s as [|c s [IHa IHt]]; simpl.
  - split; [by left|]. by intros ?%elem_of_nil.
  - assert (Hlift : (∃ r, s = r ++ [sep]) ∨ (∃ a b, s = a ++ sep :: sep :: b) →
              (∃ r, c :: s = r ++ [sep])
              ∨ ∃ a b, c :: s = a ++ sep :: sep :: b).
    { intros [(r & ->) | (a & b & ->)].
      - left. by exists (c :: r).
      - right. by exists (c :: a), b. }
    case_bool_decide as Hc.
    + subst c. split; [intros _; right; left; by exists s|].
      simpl. intros [-> | [(r & ->) | Hrest]]%IHa.
      * left. by exists [].
      * right. by exists [], r.
      * by apply Hlift.
    + pose proof (py_split_not_nil sep s).
      destruct (py_split sep s) as [|piece pieces]; [done|]. simpl in *.
      split.
      * intros [? | Hin]%elem_of_cons; [done|].
        right. right. by apply Hlift, IHt.
      * intros Hin. by apply Hlift, IHt.
Qed.

Lemma py_split_empty_piece_iff sep s :
  [] ∈ py_split sep s ↔
  s = [] ∨ (∃ r, s = sep :: r) ∨ (∃ r, s = r ++ [sep])
  ∨ ∃ a b, s = a ++ sep :: sep :: b.
Proof.
  split; [apply py_split_empty_piece|].
  intros [-> | [(r & ->) | [(r & ->) | (a & b & ->)]]].
  - constructor.
  - simpl. rewrite bool_decide_eq_true_2 by done. constructor.
  - rewrite py_split_app. apply elem_of_app. right. constructor.
  - rewrite py_split_app. apply elem_of_app. right.
    simpl. rewrite bool_decide_eq_true_2 by done. constructor.
Qed.

(** [re.sub] with an empty replacement, piece by piece. *)
Lemma re_sub_app cs (a b : str) :
  re_sub cs [] (a ++ b) = re_sub cs [] a ++ re_sub cs [] b.
Proof. unfold re_sub. apply bind_app. Qed.

Lemma re_sub_none cs s :
  Forall (λ c, mem cs c = false) s → re_sub cs [] s = s.
Proof.
  unfold re_sub. induction 1 as [|c s Hc _ IH]; [done|].
  simpl. rewrite Hc. simpl. by f_equal.
Qed.

Lemma junk_filtered junk :
  Forall (λ c, c ≠ ","%char ∧ Chars.is_digit c = false) junk →
  re_sub (CsNot (CsUnion (CsOneOf [","%char]) CsDigit)) [] junk = [].
Proof.
  intros Hjunk. apply re_sub_all. eapply Forall_impl; [done|].
  intros c [Hc Hd]. simpl. rewrite Hd, bool_decide_eq_false_2; [done|].
  by intros ?%list_elem_of_singleton.
Qed.

Lemma digits_kept ds :
  forallb Chars.is_digit ds = true →
  re_sub (CsNot (CsUnion (CsOneOf [","%char]) CsDigit)) [] ds = ds.
Proof.
  intros Hds. apply re_sub_none. apply Forall_forall. intros c Hc.
  apply list_elem_of_lookup in Hc as [i Hi].
  simpl. by rewrite (forallb_lookup _ _ _ _ Hds Hi), orb_true_r.
Qed.

End Pieces.


(** X12. Characters other than digits and commas play no part in
    [is_enabled], wherever they stand; so digits that only such characters
    keep apart are read as one number. *)
Theorem is_enabled_ignores_other_characters chans (a junk b : str) :
  Forall (λ c, c ≠ ","%char ∧ Chars.is_digit c = false) junk →
  is_enabled_of_response chans (a ++ junk ++ b)
  = is_enabled_of_response chans (a ++ b)
  ∧ (forallb Chars.is_digit a = true →
     forallb Chars.is_digit b = true →
     activated_channels (a ++ junk ++ b) = [a ++ b]).
Proof.
  intros Hjunk.
  assert (Hact : activated_channels (a ++ junk ++ b)
                 = activated_channels (a ++ b)).
  { unfold activated_channels.
    by rewrite !re_sub_app, (junk_filtered junk Hjunk). }
  split.
  - unfold is_enabled_of_response. by rewrite Hact.
  - intros Ha Hb. rewrite Hact. unfold activated_channels.
    assert (forallb Chars.is_digit (a ++ b) = true) as Hab
      by (by rewrite forallb_app, Ha, Hb).
    rewrite (digits_kept _ Hab). apply py_split_no_sep.
    intros Hin. apply list_elem_of_lookup in Hin as [i Hi].
    by pose proof (forallb_lookup _ _ _ _ Hab Hi).
Qed.

Lemma is_enabled_ignores_other_characters_witness :
  is_enabled_of_response [12] (text "1" ++ text " " ++ text "2")
  = is_enabled_of_response [12] (text "1" ++ text "2")
  ∧ (forallb Chars.is_digit (text "1") = true →
     forallb Chars.is_digit (text "2") = true →
     activated_channels (text "1" ++ text " " ++ text "2")
     = [text "1" ++ text "2"]).
Proof.
  apply (is_enabled_ignores_other_characters [12] (text "1") (text " ")
           (text "2")).
  repeat constructor. discriminate.
Defined.



(** X14. Fewer channels are enabled whenever more are: when [is_enabled]
    returns true for a module, it returns true on the same response for
    every module whose channels are among those of the first; and whether
    it raises does not depend on the channels at all. *)
Theorem is_enabled_antitone chans chans' response :
  (∀ e, is_enabled_of_response chans response = inl e →
        is_enabled_of_response chans' response = inl e)
  ∧ ((∀ c, c ∈ chans' → c ∈ chans) →
     is_enabled_of_response chans response = inr true →
     is_enabled_of_response chans' response = inr true).
Proof.
  rewrite !is_enabled_of_response_spec.
  case_bool_decide as Hin; split; try done.
  intros Hsub [= Hall%bool_decide_eq_true]. f_equal.
  apply bool_decide_eq_true. set_solver.
Qed.

Lemma is_enabled_antitone_witness :
  is_enabled_of_response [2] (text "CN1,2,3") = inr true
  ∧ is_enabled_of_response [2] (text "CL") = inl int_of_nothing.
Proof.
  split.
  - apply (proj2 (is_enabled_antitone [1; 2] [2] (text "CN1,2,3"))).
    + intros c Hc. apply elem_of_cons. by right.
    + vm_compute. reflexivity.
  - apply (proj1 (is_enabled_antitone [1; 2] [2] (text "CL"))).
    vm_compute. reflexivity.
Defined.

(* ================================================================== *)
(** * [B1500Module.__init__] *)

Section InitFacts.

Lemma text_inj (a b : string) : text a = text b → a = b.
Proof.
  unfold text. intros Heq. apply (f_equal string_of_list_ascii) in Heq.
  by rewrite !string_of_list_ascii_of_string in Heq.
Qed.

Lemma py_str_int_inj n m : py_str_int n = py_str_int m → n = m.
Proof. unfold py_str_int. intros Heq%text_inj. by apply (inj pretty). Qed.

End InitFacts.



(* ================================================================== *)
(** * The sign of the value *)

Section FloatSign.

Lemma shr_1_nonneg mrs : 0 ≤ shr_m mrs → 0 ≤ shr_m (shr_1 mrs).
Proof. destruct mrs as [[|[p|p|]|p] r t]; simpl; lia. Qed.

Lemma iter_pos_invariant {A} (P : A → Prop) (f : A → A) p :
  (∀ x, P x → P (f x)) → ∀ x, P x → P (SpecFloat.iter_pos f p x).
Proof. intros Hf. induction p; simpl; auto. Qed.

Lemma shr_fexp_nonneg m e l :
  0 ≤ m → 0 ≤ shr_m (shr_fexp Float.prec Float.emax m e l).1.
Proof.
  intros Hm. unfold shr_fexp, shr.
  assert (0 ≤ shr_m (shr_record_of_loc m l)) by (by destruct l as [|[]]).
  destruct (_ - e)%Z; simpl; [done| |done].
  apply (iter_pos_invariant (λ mrs, 0 ≤ shr_m mrs)); [|done].
  apply shr_1_nonneg.
Qed.

Lemma round_nearest_even_nonneg m l : 0 ≤ m → 0 ≤ round_nearest_even m l.
Proof.
  intros Hm. destruct l as [|[]]; simpl; [done| |done|lia].
  destruct (Z.even m); lia.
Qed.

(** Rounding a mantissa that is not negative keeps the sign it is given
    and does not give NaN. *)
Lemma binary_round_aux_sign neg m e l :
  0 ≤ m →
  float_negative (binary_round_aux Float.prec Float.emax neg m e l)
  = Some neg.
Proof.
  intros Hm. unfold binary_round_aux.
  pose proof (shr_fexp_nonneg m e l Hm) as H1.
  destruct (shr_fexp _ _ m e l) as [mrs' e']. simpl in H1.
  pose proof (shr_fexp_nonneg _ e' loc_Exact
                (round_nearest_even_nonneg _ (loc_of_shr_record mrs') H1))
    as H2.
  destruct (shr_fexp _ _ _ e' loc_Exact) as [mrs'' e'']. simpl in H2.
  destruct (shr_m mrs'') as [|p|p]; [done| |lia].
  by destruct (e'' <=? _)%Z.
Qed.

Lemma of_ratio_sign neg a b :
  float_negative (Float.of_ratio neg a b) = Some neg.
Proof.
  unfold Float.of_ratio, SFdiv, SFdiv_core_binary.
  set (m' := match _ with Zpos _ => Z.shiftl _ _ | Z0 => Zpos a | _ => 0 end).
  assert (0 ≤ m') as Hm'.
  { subst m'. destruct (_ - _)%Z; [lia| |lia]. by apply Z.shiftl_nonneg. }
  pose proof (Z.div_pos m' (Zpos b) Hm' eq_refl) as Hq.
  unfold Z.div in Hq. destruct (Z.div_eucl m' (Z.pos b)) as [q r].
  rewrite xorb_false_r. by apply binary_round_aux_sign.
Qed.

Lemma of_decimal_sign neg n e :
  float_negative (Float.of_decimal neg n e) = Some neg.
Proof.
  unfold Float.of_decimal. destruct n; [done| |done].
  destruct (0 <=? e)%Z; apply of_ratio_sign.
Qed.

End FloatSign.

(** X16. The value of a record is never NaN and carries the sign of the
    response: its sign bit is set exactly when the numeric token begins
    with a minus, also when the digits are all zero. *)
Theorem spot_value_sign pre sg tok rest :
  prefix_ok pre →
  value_token (sg :: tok) →
  ∃ f,
    parse_spot_measurement_response (prefix_text pre ++ (sg :: tok) ++ rest)
    = inr (spot_record pre f)
    ∧ float_negative f = Some (bool_decide (sg = "-"%char)).
Proof.
  intros Hpre Htok.
  destruct (parse_spot_complete pre (sg :: tok) rest Hpre Htok)
    as (f & Hf & Hp).
  exists f. split; [done|].
  inversion Htok as [? ip fp sg' e1 e2 Hsg Hip Hipl Hfp Hfpl Hsg' He1 He2];
    subst.
  unfold py_float in Hf.
  rewrite float_parse_token in Hf by (done || lia).
  injection Hf as <-. apply of_decimal_sign.
Qed.

Lemma spot_value_sign_witness :
  ∃ f,
    parse_spot_measurement_response
      (prefix_text None ++ text "-000.000E+00" ++ text "")
    = inr (spot_record None f)
    ∧ float_negative f = Some (bool_decide ("-"%char = "-"%char)).
Proof.
  apply (spot_value_sign None "-"%char (text "000.000E+00") (text "") I).
  apply (ValueToken "-" (text "000") (text "000") "+" "0" "0")%char;
    (reflexivity || (simpl; lia)).
Defined.

Lemma module_query_size_witness :
  ∃ d,
    parse_module_query_response (text "A,1;0,2;B,3") = inr d
    ∧ size d
      = length (filter (λ t : list str, t !! 0%nat ≠ Some (text "0"))
                  (re_findall module_pattern (text "A,1;0,2;B,3")))
    ∧ ∀ k, is_Some (d !! k) →
        (Pos.to_nat k
         ≤ length (re_findall module_pattern (text "A,1;0,2;B,3")))%nat.
Proof. exact (module_query_size (text "A,1;0,2;B,3")). Defined.

Lemma spot_reads_first_18_witness :
  parse_spot_measurement_response (take 18 (text "NAI+123.456789E+05,NBI"))
  = inr (spot_record (Some ("N", "A", "I")%char) (float_literal "12345678.9")).
Proof.
  apply (proj1 (spot_reads_first_18 (text "NAI+123.456789E+05,NBI") _)).
  vm_compute. reflexivity.
Defined.

